(** * Turboshaft sidetables (deps/v8/src/compiler/turboshaft/sidetable.h)

    A shallow embedding of the sidetable templates of Turboshaft and the
    properties of growth, reset, swap and debug validation.

    Conventions of the embedding:
    - [size_t] is a 64-bit unsigned integer, carried as a [Z] whose
      wrap-around is written out ([size_t_wrap]); the [id()] of a key is a
      [uint32_t];
    - a [DCHECK] aborts in a debug build and is compiled out of a release
      build; the build is an explicit argument [b : Build];
    - a C++ reference [T&] into the backing vector is a slot position; the
      caller reads through it ([get]) or assigns through it ([set]);
    - every operation that touches the table returns the new table
      (explicit state passing), wrapped in [Outcome] where a check can
      abort. *)

From Stdlib Require Import ZArith Lia.
From stdpp Require Import base list.

Local Open Scope Z_scope.

(** ** Builds, checks and outcomes *)

Inductive Build : Type := Debug | Release.

(** What running a piece of code yields: a result, the abort of a failed
    [DCHECK], or undefined behaviour (an unchecked out-of-bounds access). *)
Inductive Outcome (A : Type) : Type :=
  | Ok (a : A)
  | Fatal
  | Undefined.
Arguments Ok {A} a.
Arguments Fatal {A}.
Arguments Undefined {A}.

#[global] Instance Outcome_ret : MRet Outcome := fun A a => Ok a.
#[global] Instance Outcome_bind : MBind Outcome := fun A B f m =>
  match m with
  | Ok a => f a
  | Fatal => Fatal
  | Undefined => Undefined
  end.

(** [DCHECK(cond)]: checked in a debug build only. *)
Definition DCHECK (b : Build) (cond : bool) : Outcome unit :=
  match b with
  | Debug => if cond then Ok tt else Fatal
  | Release => Ok tt
  end.

(** A member that exists only [#ifdef DEBUG]. *)
Definition DebugOnly (b : Build) (A : Type) : Type :=
  match b with Debug => A | Release => unit end.

(** ** Machine integers *)

Definition size_t_bits : Z := 64.
Definition size_t_wrap (z : Z) : Z := z mod 2 ^ size_t_bits.
Definition uint32_wrap (z : Z) : Z := z mod 2 ^ 32.
Definition uint32_max : Z := 2 ^ 32 - 1.

(** ** Keys

    [static_assert(is_same_v<Key, OpIndex> || is_same_v<Key, BlockIndex>)]:
    a key is one of two index types, each with [id()] and [valid()]. *)

Class SidetableKey (Key : Type) : Type := {
  id : Key -> Z;
  valid : Key -> bool;
  id_uint32 : forall k, 0 <= id k < 2 ^ 32
}.

(** Modelled from the spec: [OpIndex] is declared in a header that is not
    among the sources; a key is a dense non-negative integer handle with a
    distinguished invalid sentinel. *)
Record OpIndex : Type := { op_raw : Z }.

(** Modelled from the spec: [BlockIndex] is declared in a header that is
    not among the sources; as for [OpIndex], a 32-bit handle whose largest
    value is the invalid sentinel. *)
Record BlockIndex : Type := { block_raw : Z }.

#[global] Instance OpIndex_key : SidetableKey OpIndex := {|
  id k := uint32_wrap (op_raw k);
  valid k := negb (uint32_wrap (op_raw k) =? uint32_max);
  id_uint32 k := Z.mod_pos_bound (op_raw k) (2 ^ 32) eq_refl
|}.

#[global] Instance BlockIndex_key : SidetableKey BlockIndex := {|
  id k := uint32_wrap (block_raw k);
  valid k := negb (uint32_wrap (block_raw k) =? uint32_max);
  id_uint32 k := Z.mod_pos_bound (block_raw k) (2 ^ 32) eq_refl
|}.

(** ** The backing vector *)

Module ZoneVector.

(** Modelled from the spec: [ZoneVector] (src/zone/zone-containers.h) is
    not among the sources.  A vector is the elements in [0, size()) and the
    number of slots its allocation holds; its operations below are the ones
    the sidetables call, modelled likewise. *)
Record t (T : Type) : Type := { data : list T; capacity : Z }.
Arguments data {T} _.
Arguments capacity {T} _.

Section Vec.
Context {T : Type}.
(** [T{}], the value-initialised element. *)
Variable T_default : T.
(** The capacity the allocator grants when [capacity() < minimum]. *)
Variable NewCapacity : Z -> Z -> Z.

Definition size (v : t T) : Z := Z.of_nat (length (data v)).
Definition empty (v : t T) : bool := size v =? 0.

(** Modelled from the spec: the constructors [ZoneVector(zone)],
    [ZoneVector(size, value, zone)] and [ZoneVector(size, zone)]. *)
Definition make : t T := {| data := []; capacity := 0 |}.
Definition make_filled (n : Z) (value : T) : t T :=
  {| data := replicate (Z.to_nat n) value; capacity := n |}.
Definition make_sized (n : Z) : t T := make_filled n T_default.

(** Modelled from the spec: storage is regrown only when the capacity is
    below the minimum asked for; what the allocator then grants is the
    parameter [NewCapacity]. *)
Definition EnsureCapacity (minimum : Z) (v : t T) : t T :=
  if capacity v <? minimum
  then {| data := data v; capacity := NewCapacity (capacity v) minimum |}
  else v.

(** Modelled from the spec: [resize(new_size)] truncates, or appends
    value-initialised elements, after making room. *)
Definition resize (new_size : Z) (v : t T) : t T :=
  let v' := EnsureCapacity new_size v in
  {| data := list.resize (Z.to_nat new_size) T_default (data v');
     capacity := capacity v' |}.

(** Modelled from the spec: [v[pos]], the reference to slot [pos]; the
    bound is a [DCHECK], and an unchecked access out of bounds is
    undefined. *)
Definition at_ (b : Build) (pos : Z) (v : t T) : Outcome nat :=
  _ ← DCHECK b (pos <? size v);
  if pos <? size v then Ok (Z.to_nat pos) else Undefined.

(** [std::fill(v.begin(), v.end(), x)]. *)
Definition fill (x : T) (v : t T) : t T :=
  {| data := replicate (length (data v)) x; capacity := capacity v |}.

(** Reading and assigning through a reference. *)
Definition load (r : nat) (v : t T) : Outcome T :=
  match data v !! r with Some x => Ok x | None => Undefined end.
Definition store (r : nat) (x : T) (v : t T) : t T :=
  {| data := <[r := x]> (data v); capacity := capacity v |}.

(** The vector seen as the conceptually infinite mapping it stands
    for: slots that are not materialised read as [T{}]. *)
Definition view (v : t T) (i : Z) : T :=
  nth (Z.to_nat i) (data v) T_default.
End Vec.

End ZoneVector.

(** ** detail::GrowingSidetable *)

Module GrowingSidetable.

Record t (T : Type) : Type := { table_ : ZoneVector.t T }.
Arguments table_ {T} _.

Section Growing.
Context {T Key : Type} `{SidetableKey Key}.
Variable T_default : T.
Variable NewCapacity : Z -> Z -> Z.

Local Abbreviation vresize := (ZoneVector.resize T_default NewCapacity).

(** [GrowingSidetable(zone)] and
    [GrowingSidetable(size, initial_value, zone)]. *)
Definition create : t T := {| table_ := ZoneVector.make |}.
Definition create_filled (size : Z) (initial_value : T) : t T :=
  {| table_ := ZoneVector.make_filled size initial_value |}.

(** [table_.size()] and [table_.capacity()]. *)
Definition size (s : t T) : Z := ZoneVector.size (table_ s).
Definition capacity (s : t T) : Z := ZoneVector.capacity (table_ s).

Definition NextSize (b : Build) (s : t T) (out_of_bounds_index : Z)
  : Outcome Z :=
  _ ← DCHECK b (ZoneVector.size (table_ s) <=? out_of_bounds_index);
  Ok (size_t_wrap
        (out_of_bounds_index + out_of_bounds_index / 2 + 32)).

(** [T& operator[](Key index)]: the table after the access and the
    reference to slot [i]. *)
Definition index (b : Build) (k : Key) (s : t T) : Outcome (t T * nat) :=
  _ ← DCHECK b (valid k);
  let i := id k in
  s' ← (if ZoneVector.size (table_ s) <=? i then
          n ← NextSize b s i;
          let v1 := vresize n (table_ s) in
          Ok {| table_ := vresize (ZoneVector.capacity v1) v1 |}
        else Ok s);
  r ← ZoneVector.at_ b i (table_ s');
  Ok (s', r).

(** [const T& operator[](Key index) const]: [table_] is [mutable], so
    the const accessor returns the table it leaves behind, too. *)
Definition index_const (b : Build) (k : Key) (s : t T)
  : Outcome (t T * nat) :=
  _ ← DCHECK b (valid k);
  let i := id k in
  s' ← (if ZoneVector.size (table_ s) <=? i then
          n ← NextSize b s i;
          let v1 := vresize n (table_ s) in
          Ok {| table_ := vresize (ZoneVector.capacity v1) v1 |}
        else Ok s);
  r ← ZoneVector.at_ b i (table_ s');
  Ok (s', r).

(** [x = table[k]] through either accessor, and [table[k] = x]. *)
Definition get (b : Build) (k : Key) (s : t T) : Outcome (t T * T) :=
  '(s', r) ← index b k s;
  x ← ZoneVector.load r (table_ s');
  Ok (s', x).

Definition get_const (b : Build) (k : Key) (s : t T)
  : Outcome (t T * T) :=
  '(s', r) ← index_const b k s;
  x ← ZoneVector.load r (table_ s');
  Ok (s', x).

Definition set (b : Build) (k : Key) (x : T) (s : t T) : Outcome (t T) :=
  '(s', r) ← index b k s;
  Ok {| table_ := ZoneVector.store r x (table_ s') |}.

Definition Reset (s : t T) : t T :=
  {| table_ := ZoneVector.fill T_default (table_ s) |}.

Definition empty (s : t T) : bool := ZoneVector.empty (table_ s).

(** The conceptually infinite mapping. *)
Definition view (s : t T) (i : Z) : T :=
  ZoneVector.view T_default (table_ s) i.

(** A caller's script: reads, writes and resets, run in order. *)
Inductive Op : Type :=
  | Read (k : Key)
  | Write (k : Key) (x : T)
  | DoReset.

Definition step (b : Build) (op : Op) (s : t T) : Outcome (t T) :=
  match op with
  | Read k => '(s', _) ← get b k s; Ok s'
  | Write k x => set b k x s
  | DoReset => Ok (Reset s)
  end.

Fixpoint run (b : Build) (ops : list Op) (s : t T) : Outcome (t T) :=
  match ops with
  | [] => Ok s
  | op :: ops' => s' ← step b op s; run b ops' s'
  end.

Definition is_access (op : Op) : bool :=
  match op with DoReset => false | _ => true end.

Definition op_key (op : Op) : option Key :=
  match op with Read k | Write k _ => Some k | DoReset => None end.

Definition op_valid (op : Op) : bool :=
  match op_key op with Some k => valid k | None => true end.

(** The [DCHECK(index.valid())] an operation meets, if any. *)
Definition op_checked (b : Build) (op : Op) : Outcome unit :=
  match op_key op with Some k => DCHECK b (valid k) | None => Ok tt end.

(** What one operation leaves in slot [j], given what was there. *)
Definition slot_after (j : Z) (op : Op) (before : T) : T :=
  match op with
  | Read _ => before
  | Write k x => if id k =? j then x else before
  | DoReset => T_default
  end.

(** The last value written to slot [j] by a script of accesses. *)
Fixpoint last_write (j : Z) (ops : list Op) : option T :=
  match ops with
  | [] => None
  | op :: ops' =>
      match last_write j ops' with
      | Some x => Some x
      | None =>
          match op with
          | Write k x => if id k =? j then Some x else None
          | _ => None
          end
      end
  end.

(** The test of [operator[]] under which an access grows the table. *)
Definition grows (k : Key) (s : t T) : bool :=
  ZoneVector.size (table_ s) <=? id k.

Definition op_grows (op : Op) (s : t T) : bool :=
  match op_key op with Some k => grows k s | None => false end.

(** How many operations of a script grow the table. *)
Fixpoint growths (b : Build) (ops : list Op) (s : t T) : nat :=
  match ops with
  | [] => 0%nat
  | op :: ops' =>
      match step b op s with
      | Ok s' => ((if op_grows op s then 1 else 0) + growths b ops' s')%nat
      | _ => 0%nat
      end
  end.
End Growing.
Arguments Op : clear implicits.

End GrowingSidetable.

(** The least size a table can have after [g] growths: each growth at index
    [i >= size] leaves at least [i + i/2 + 32] slots. *)
Fixpoint least_size_after (g : nat) : Z :=
  match g with
  | O => 0
  | S g' => let n := least_size_after g' in n + n / 2 + 32
  end.

(** After this many growths the size exceeds every [uint32_t] id. *)
Definition growth_limit : nat := 45.

(** ** detail::FixedSidetable *)

Module FixedSidetable.

Record t (T : Type) : Type := { table_ : ZoneVector.t T }.
Arguments table_ {T} _.

Section Fixed.
Context {T Key : Type} `{SidetableKey Key}.
Variable T_default : T.

(** [FixedSidetable(size, zone)] and
    [FixedSidetable(size, default_value, zone)]. *)
Definition create (size : Z) : t T :=
  {| table_ := ZoneVector.make_sized T_default size |}.
Definition create_filled (size : Z) (default_value : T) : t T :=
  {| table_ := ZoneVector.make_filled size default_value |}.

Definition size (s : t T) : Z := ZoneVector.size (table_ s).
Definition capacity (s : t T) : Z := ZoneVector.capacity (table_ s).

(** [T& operator[](Key op)]. *)
Definition index (b : Build) (op : Key) (s : t T) : Outcome (t T * nat) :=
  _ ← DCHECK b (id op <? ZoneVector.size (table_ s));
  r ← ZoneVector.at_ b (id op) (table_ s);
  Ok (s, r).

(** [const T& operator[](Key op) const]. *)
Definition index_const (b : Build) (op : Key) (s : t T)
  : Outcome (t T * nat) :=
  _ ← DCHECK b (id op <? ZoneVector.size (table_ s));
  r ← ZoneVector.at_ b (id op) (table_ s);
  Ok (s, r).

Definition get (b : Build) (k : Key) (s : t T) : Outcome (t T * T) :=
  '(s', r) ← index b k s;
  x ← ZoneVector.load r (table_ s');
  Ok (s', x).

(** [x = table[k]] on a [const] table. *)
Definition get_const (b : Build) (k : Key) (s : t T) : Outcome (t T * T) :=
  '(s', r) ← index_const b k s;
  x ← ZoneVector.load r (table_ s');
  Ok (s', x).

Definition set (b : Build) (k : Key) (x : T) (s : t T) : Outcome (t T) :=
  '(s', r) ← index b k s;
  Ok {| table_ := ZoneVector.store r x (table_ s') |}.

Definition view (s : t T) (i : Z) : T :=
  ZoneVector.view T_default (table_ s) i.

(** How an access out of bounds ends: the abort of the debug check, or the
    unchecked access of a release build. *)
Definition failed (b : Build) : Outcome (t T) :=
  match b with Debug => Fatal | Release => Undefined end.

(** A caller's script: reads through either overload, and writes. *)
Inductive Op : Type :=
  | Read (k : Key)
  | ReadConst (k : Key)
  | Write (k : Key) (x : T).

Definition op_key (op : Op) : Key :=
  match op with Read k | ReadConst k | Write k _ => k end.

Definition op_in_range (n : Z) (op : Op) : bool := id (op_key op) <? n.

Definition step (b : Build) (op : Op) (s : t T) : Outcome (t T) :=
  match op with
  | Read k => '(s', _) ← get b k s; Ok s'
  | ReadConst k => '(s', _) ← get_const b k s; Ok s'
  | Write k x => set b k x s
  end.

Fixpoint run (b : Build) (ops : list Op) (s : t T) : Outcome (t T) :=
  match ops with
  | [] => Ok s
  | op :: ops' => s' ← step b op s; run b ops' s'
  end.

Fixpoint last_write (j : Z) (ops : list Op) : option T :=
  match ops with
  | [] => None
  | op :: ops' =>
      match last_write j ops' with
      | Some x => Some x
      | None =>
          match op with
          | Write k x => if id k =? j then Some x else None
          | Read _ | ReadConst _ => None
          end
      end
  end.
End Fixed.
Arguments Op : clear implicits.

End FixedSidetable.

(** ** Block-keyed tables: the generic containers at [Key = BlockIndex] *)

Module GrowingBlockSidetable.
Section Block.
Context {T : Type}.
Variable T_default : T.
Variable NewCapacity : Z -> Z -> Z.

Definition t : Type := GrowingSidetable.t T.
Definition create : t := GrowingSidetable.create.
Definition create_filled (size : Z) (initial_value : T) : t :=
  GrowingSidetable.create_filled size initial_value.
(** The accessors are the inherited ones. *)
Definition index (b : Build) (k : BlockIndex) (s : t)
  : Outcome (t * nat) :=
  GrowingSidetable.index T_default NewCapacity b k s.
Definition index_const (b : Build) (k : BlockIndex) (s : t)
  : Outcome (t * nat) :=
  GrowingSidetable.index_const T_default NewCapacity b k s.
End Block.
End GrowingBlockSidetable.

Module FixedBlockSidetable.
Section Block.
Context {T : Type}.
Variable T_default : T.

Definition t : Type := FixedSidetable.t T.
Definition create (size : Z) : t := FixedSidetable.create T_default size.
Definition create_filled (size : Z) (initial_value : T) : t :=
  FixedSidetable.create_filled size initial_value.
Definition index (b : Build) (k : BlockIndex) (s : t)
  : Outcome (t * nat) :=
  FixedSidetable.index b k s.
Definition index_const (b : Build) (k : BlockIndex) (s : t)
  : Outcome (t * nat) :=
  FixedSidetable.index_const b k s.
End Block.
End FixedBlockSidetable.

(** ** Node-keyed tables: the graph binding of debug builds *)

(** The constructors store [graph] only [#ifdef DEBUG]. *)
Definition bind_graph {Graph : Type} (b : Build) (graph : Graph)
  : DebugOnly b Graph :=
  match b with Debug => graph | Release => tt end.

(** [DCHECK(OpIndexBelongsToTableGraph(graph_, index))]. *)
Definition DCHECK_graph {Graph : Type}
    (OpIndexBelongsToTableGraph : Graph -> OpIndex -> bool)
    (b : Build) : DebugOnly b Graph -> OpIndex -> Outcome unit :=
  match b with
  | Debug => fun graph_ index =>
      DCHECK Debug (OpIndexBelongsToTableGraph graph_ index)
  | Release => fun _ _ => Ok tt
  end.

(** Whether the graph check of the build lets an index through. *)
Definition graph_accepts {Graph : Type}
    (OpIndexBelongsToTableGraph : Graph -> OpIndex -> bool)
    (b : Build) (g : DebugOnly b Graph) (i : OpIndex) : bool :=
  match DCHECK_graph OpIndexBelongsToTableGraph b g i with
  | Ok _ => true
  | _ => false
  end.

Module GrowingOpIndexSidetable.

Record t (b : Build) (Graph T : Type) : Type := {
  base : GrowingSidetable.t T;
  graph_ : DebugOnly b Graph
}.
Arguments base {b Graph T} _.
Arguments graph_ {b Graph T} _.

Section OpIndexed.
Context {Graph T : Type}.
Variable T_default : T.
Variable NewCapacity : Z -> Z -> Z.
(** Declared in the header, defined elsewhere. *)
Variable OpIndexBelongsToTableGraph : Graph -> OpIndex -> bool.

Definition create (b : Build) (graph : Graph) : t b Graph T :=
  {| base := GrowingSidetable.create; graph_ := bind_graph b graph |}.
Definition create_filled (b : Build) (size : Z) (initial_value : T)
    (graph : Graph) : t b Graph T :=
  {| base := GrowingSidetable.create_filled size initial_value;
     graph_ := bind_graph b graph |}.

Definition index (b : Build) (index : OpIndex) (s : t b Graph T)
  : Outcome (t b Graph T * nat) :=
  _ ← DCHECK_graph OpIndexBelongsToTableGraph b (graph_ s) index;
  '(base', r) ← GrowingSidetable.index T_default NewCapacity b index
                  (base s);
  Ok ({| base := base'; graph_ := graph_ s |}, r).

Definition index_const (b : Build) (index : OpIndex) (s : t b Graph T)
  : Outcome (t b Graph T * nat) :=
  _ ← DCHECK_graph OpIndexBelongsToTableGraph b (graph_ s) index;
  '(base', r) ← GrowingSidetable.index_const T_default NewCapacity b index
                  (base s);
  Ok ({| base := base'; graph_ := graph_ s |}, r).

Definition get (b : Build) (k : OpIndex) (s : t b Graph T)
  : Outcome (t b Graph T * T) :=
  '(s', r) ← index b k s;
  x ← ZoneVector.load r (GrowingSidetable.table_ (base s'));
  Ok (s', x).

(** The value a read returns. *)
Definition read (b : Build) (k : OpIndex) (s : t b Graph T) : Outcome T :=
  '(_, x) ← get b k s; Ok x.

(** [x = table[k]] on a [const] table, and [table[k] = x]. *)
Definition get_const (b : Build) (k : OpIndex) (s : t b Graph T)
  : Outcome (t b Graph T * T) :=
  '(s', r) ← index_const b k s;
  x ← ZoneVector.load r (GrowingSidetable.table_ (base s'));
  Ok (s', x).

Definition set (b : Build) (k : OpIndex) (x : T) (s : t b Graph T)
  : Outcome (t b Graph T) :=
  '(s', r) ← index b k s;
  Ok {| base :=
          {| GrowingSidetable.table_ :=
               ZoneVector.store r x (GrowingSidetable.table_ (base s')) |};
        graph_ := graph_ s' |}.

(** A caller's script: reads through either overload, and writes. *)
Inductive Op : Type :=
  | Read (i : OpIndex)
  | ReadConst (i : OpIndex)
  | Write (i : OpIndex) (x : T).

Definition op_index (op : Op) : OpIndex :=
  match op with Read i | ReadConst i | Write i _ => i end.

Definition step (b : Build) (op : Op) (s : t b Graph T)
  : Outcome (t b Graph T) :=
  match op with
  | Read i => '(s', _) ← get b i s; Ok s'
  | ReadConst i => '(s', _) ← get_const b i s; Ok s'
  | Write i x => set b i x s
  end.

Fixpoint run (b : Build) (ops : list Op) (s : t b Graph T)
  : Outcome (t b Graph T) :=
  match ops with
  | [] => Ok s
  | op :: ops' => s' ← step b op s; run b ops' s'
  end.

(** Whether an operation uses a valid index that the graph check lets
    through. *)
Definition op_accepted (b : Build) (g : DebugOnly b Graph) (op : Op) : bool :=
  valid (op_index op) &&
  graph_accepts OpIndexBelongsToTableGraph b g (op_index op).

(** The last value a script wrote to slot [j]. *)
Fixpoint last_write (j : Z) (ops : list Op) : option T :=
  match ops with
  | [] => None
  | op :: ops' =>
      match last_write j ops' with
      | Some x => Some x
      | None =>
          match op with
          | Write i x => if id i =? j then Some x else None
          | Read _ | ReadConst _ => None
          end
      end
  end.

(** The script as the generic container runs it. *)
Definition generic (op : Op) : GrowingSidetable.Op T OpIndex :=
  match op with
  | Read i | ReadConst i => GrowingSidetable.Read i
  | Write i x => GrowingSidetable.Write i x
  end.

(** [std::swap(Base::table_, other.table_)]: the two tables after the
    call, [this] first. *)
Definition SwapData {b : Build} (s other : t b Graph T)
  : t b Graph T * t b Graph T :=
  ({| base :=
        {| GrowingSidetable.table_ :=
             GrowingSidetable.table_ (base other) |};
      graph_ := graph_ s |},
   {| base :=
        {| GrowingSidetable.table_ := GrowingSidetable.table_ (base s) |};
      graph_ := graph_ other |}).
End OpIndexed.
Arguments Op : clear implicits.

End GrowingOpIndexSidetable.

Module FixedOpIndexSidetable.

Record t (b : Build) (Graph T : Type) : Type := {
  base : FixedSidetable.t T;
  graph_ : DebugOnly b Graph
}.
Arguments base {b Graph T} _.
Arguments graph_ {b Graph T} _.

Section OpIndexed.
Context {Graph T : Type}.
Variable T_default : T.
Variable OpIndexBelongsToTableGraph : Graph -> OpIndex -> bool.

Definition create (b : Build) (size : Z) (graph : Graph) : t b Graph T :=
  {| base := FixedSidetable.create T_default size;
     graph_ := bind_graph b graph |}.
Definition create_filled (b : Build) (size : Z) (default_value : T)
    (graph : Graph) : t b Graph T :=
  {| base := FixedSidetable.create_filled size default_value;
     graph_ := bind_graph b graph |}.

Definition index (b : Build) (index : OpIndex) (s : t b Graph T)
  : Outcome (t b Graph T * nat) :=
  _ ← DCHECK_graph OpIndexBelongsToTableGraph b (graph_ s) index;
  '(base', r) ← FixedSidetable.index b index (base s);
  Ok ({| base := base'; graph_ := graph_ s |}, r).

Definition index_const (b : Build) (index : OpIndex) (s : t b Graph T)
  : Outcome (t b Graph T * nat) :=
  _ ← DCHECK_graph OpIndexBelongsToTableGraph b (graph_ s) index;
  '(base', r) ← FixedSidetable.index_const b index (base s);
  Ok ({| base := base'; graph_ := graph_ s |}, r).

Definition get (b : Build) (k : OpIndex) (s : t b Graph T)
  : Outcome (t b Graph T * T) :=
  '(s', r) ← index b k s;
  x ← ZoneVector.load r (FixedSidetable.table_ (base s'));
  Ok (s', x).

Definition read (b : Build) (k : OpIndex) (s : t b Graph T) : Outcome T :=
  '(_, x) ← get b k s; Ok x.

(** [x = table[k]] on a [const] table, and [table[k] = x]. *)
Definition get_const (b : Build) (k : OpIndex) (s : t b Graph T)
  : Outcome (t b Graph T * T) :=
  '(s', r) ← index_const b k s;
  x ← ZoneVector.load r (FixedSidetable.table_ (base s'));
  Ok (s', x).

Definition set (b : Build) (k : OpIndex) (x : T) (s : t b Graph T)
  : Outcome (t b Graph T) :=
  '(s', r) ← index b k s;
  Ok {| base :=
          {| FixedSidetable.table_ :=
               ZoneVector.store r x (FixedSidetable.table_ (base s')) |};
        graph_ := graph_ s' |}.

(** A caller's script: reads through either overload, and writes. *)
Inductive Op : Type :=
  | Read (i : OpIndex)
  | ReadConst (i : OpIndex)
  | Write (i : OpIndex) (x : T).

Definition op_index (op : Op) : OpIndex :=
  match op with Read i | ReadConst i | Write i _ => i end.

Definition step (b : Build) (op : Op) (s : t b Graph T)
  : Outcome (t b Graph T) :=
  match op with
  | Read i => '(s', _) ← get b i s; Ok s'
  | ReadConst i => '(s', _) ← get_const b i s; Ok s'
  | Write i x => set b i x s
  end.

Fixpoint run (b : Build) (ops : list Op) (s : t b Graph T)
  : Outcome (t b Graph T) :=
  match ops with
  | [] => Ok s
  | op :: ops' => s' ← step b op s; run b ops' s'
  end.

(** Whether an operation uses an index below [n] that the graph check
    lets through. *)
Definition op_accepted (b : Build) (g : DebugOnly b Graph) (n : Z) (op : Op)
  : bool :=
  graph_accepts OpIndexBelongsToTableGraph b g (op_index op) &&
  (id (op_index op) <? n).

(** The last value a script wrote to slot [j]. *)
Fixpoint last_write (j : Z) (ops : list Op) : option T :=
  match ops with
  | [] => None
  | op :: ops' =>
      match last_write j ops' with
      | Some x => Some x
      | None =>
          match op with
          | Write i x => if id i =? j then Some x else None
          | Read _ | ReadConst _ => None
          end
      end
  end.

(** The script as the generic container runs it. *)
Definition generic (op : Op) : FixedSidetable.Op T OpIndex :=
  match op with
  | Read i => FixedSidetable.Read i
  | ReadConst i => FixedSidetable.ReadConst i
  | Write i x => FixedSidetable.Write i x
  end.

Definition SwapData {b : Build} (s other : t b Graph T)
  : t b Graph T * t b Graph T :=
  ({| base :=
        {| FixedSidetable.table_ := FixedSidetable.table_ (base other) |};
      graph_ := graph_ s |},
   {| base :=
        {| FixedSidetable.table_ := FixedSidetable.table_ (base s) |};
      graph_ := graph_ other |}).
End OpIndexed.
Arguments Op : clear implicits.

End FixedOpIndexSidetable.

(** ** Concrete parameters, to run the definitions *)

(** An allocator that doubles its capacity, or grants the minimum when
    that is more. *)
Definition doubling_capacity (cap minimum : Z) : Z :=
  Z.max minimum (if cap =? 0 then 2 else size_t_wrap (cap * 2)).

Definition block (n : Z) : BlockIndex := {| block_raw := n |}.
Definition op (n : Z) : OpIndex := {| op_raw := n |}.

(** A graph given by the ids of the operations it holds. *)
Definition listed_graph_owns (g : list Z) (i : OpIndex) : bool :=
  existsb (Z.eqb (id i)) g.

(** * Properties *)

(** ** Lists under [resize] *)

Section ListFacts.
Context {A : Type}.
Implicit Types (l : list A) (d x : A) (n m i : nat).

Lemma resize_extend_twice l n m d :
  (length l <= n)%nat -> (n <= m)%nat ->
  list.resize m d (list.resize n d l) = list.resize m d l.
Proof.
  intros Hl Hn.
  rewrite (resize_ge l n) by lia.
  rewrite (resize_ge (l ++ _) m) by (rewrite length_app, length_replicate; lia).
  rewrite (resize_ge l m) by lia.
  rewrite <- app_assoc, <- replicate_add, length_app, length_replicate.
  do 2 f_equal. lia.
Qed.

Lemma nth_resize_extend l n d i :
  (length l <= n)%nat -> nth i (list.resize n d l) d = nth i l d.
Proof.
  intros Hl. rewrite resize_ge by lia.
  destruct (Nat.lt_ge_cases i (length l)) as [Hi | Hi].
  - now rewrite app_nth1.
  - rewrite app_nth2 by lia. rewrite (nth_overflow l) by lia.
    rewrite !nth_lookup.
    destruct (replicate _ _ !! _) eqn:E; [|reflexivity].
    apply lookup_replicate in E. simpl. tauto.
Qed.

Lemma nth_insert l i j x d :
  (i < length l)%nat ->
  nth j (<[i := x]> l) d = if Nat.eqb i j then x else nth j l d.
Proof.
  intros Hi. rewrite !nth_lookup.
  destruct (Nat.eqb_spec i j) as [-> | Hne].
  - now rewrite list_lookup_insert_eq.
  - now rewrite list_lookup_insert_ne.
Qed.

Lemma nth_replicate_same n d i : nth i (replicate n d) d = d.
Proof.
  rewrite nth_lookup. destruct (replicate _ _ !! _) eqn:E; [|reflexivity].
  apply lookup_replicate in E. simpl. tauto.
Qed.

Lemma nth_replicate_lt n x d i : (i < n)%nat -> nth i (replicate n x) d = x.
Proof.
  intros Hi. apply nth_lookup_Some. now apply lookup_replicate_2.
Qed.
End ListFacts.

(** ** Machine arithmetic of [NextSize] *)

Lemma NextSize_fits i :
  0 <= i < 2 ^ 32 -> size_t_wrap (i + i / 2 + 32) = i + i / 2 + 32.
Proof.
  intros Hi. unfold size_t_wrap, size_t_bits.
  apply Z.mod_small.
  assert (0 <= i / 2 <= i)
    by (split; [apply Z.div_pos | apply Z.div_le_upper_bound]; lia).
  change (2 ^ 64) with 18446744073709551616.
  change (2 ^ 32) with 4294967296 in Hi. lia.
Qed.

Lemma DCHECK_true b : DCHECK b true = Ok tt.
Proof. now destruct b. Qed.

(** ** The growing container *)

Section GrowingFacts.
Context {T Key : Type} `{SidetableKey Key}.
Variable T_default : T.
Variable NewCapacity : Z -> Z -> Z.
(** The allocator grants at least what [resize] asks for. *)
Hypothesis NewCapacity_ge :
  forall cap minimum, minimum <= NewCapacity cap minimum.

Import GrowingSidetable.

Local Abbreviation index := (index T_default NewCapacity).
Local Abbreviation index_const := (index_const T_default NewCapacity).
Local Abbreviation get := (get T_default NewCapacity).
Local Abbreviation get_const := (get_const T_default NewCapacity).
Local Abbreviation set := (set T_default NewCapacity).
Local Abbreviation step := (step T_default NewCapacity).
Local Abbreviation run := (run T_default NewCapacity).
Local Abbreviation Reset := (Reset T_default).
Local Abbreviation view := (view T_default).

(** What an access does to the table, once its [DCHECK] passes (the key
    is valid, or the build has no checks). *)
Lemma index_effect b k (s : t T) :
  DCHECK b (valid k) = Ok tt ->
  exists s',
    index b k s = Ok (s', Z.to_nat (id k)) /\
    id k < size s' /\
    size s <= size s' /\
    capacity s <= capacity s' /\
    ZoneVector.data (table_ s') =
      list.resize (Z.to_nat (size s')) T_default
        (ZoneVector.data (table_ s)) /\
    (id k < size s -> s' = s) /\
    (size s <= id k ->
       id k + id k / 2 + 32 <= size s' /\ capacity s' = size s').
Proof.
  intros Hadm.
  pose proof (id_uint32 k) as Hk.
  unfold GrowingSidetable.index. rewrite Hadm. cbn [mbind Outcome_bind].
  destruct s as [[l c]]. unfold size, capacity, ZoneVector.size.
  cbn [table_ ZoneVector.data ZoneVector.capacity].
  destruct (Z.leb_spec (Z.of_nat (length l)) (id k)) as [Hge | Hlt].
  - unfold NextSize. cbn [table_]. unfold ZoneVector.size at 1.
    cbn [ZoneVector.data].
    replace (Z.of_nat (length l) <=? id k) with true
      by (symmetry; now apply Z.leb_le).
    rewrite DCHECK_true. cbn [mbind Outcome_bind].
    rewrite NextSize_fits by exact Hk.
    set (n := id k + id k / 2 + 32).
    assert (Hn : id k < n).
    { subst n. assert (0 <= id k / 2) by (apply Z.div_pos; lia). lia. }
    unfold ZoneVector.resize at 2 3. unfold ZoneVector.EnsureCapacity.
    cbn [ZoneVector.capacity ZoneVector.data].
    set (c1 := ZoneVector.capacity (if c <? n then _ else _)).
    assert (Hc1 : n <= c1 /\ c <= c1).
    { subst c1. destruct (Z.ltb_spec c n); cbn;
        [pose proof (NewCapacity_ge c n) | ]; lia. }
    replace (ZoneVector.data (if c <? n then _ else _)) with l
      by (now destruct (c <? n)).
    unfold ZoneVector.resize, ZoneVector.EnsureCapacity.
    cbn [ZoneVector.capacity ZoneVector.data].
    rewrite Z.ltb_irrefl. cbn [ZoneVector.capacity ZoneVector.data].
    rewrite resize_extend_twice by lia.
    unfold ZoneVector.at_, ZoneVector.size. cbn [table_ ZoneVector.data].
    rewrite length_resize.
    replace (id k <? Z.of_nat (Z.to_nat c1)) with true
      by (symmetry; apply Z.ltb_lt; lia).
    rewrite DCHECK_true. cbn [mbind Outcome_bind].
    eexists. split; [reflexivity|].
    cbn [table_ ZoneVector.data ZoneVector.capacity].
    rewrite length_resize. rewrite Nat2Z.id.
    repeat split; try lia.
  - cbn [mbind Outcome_bind table_].
    unfold ZoneVector.at_, ZoneVector.size. cbn [ZoneVector.data].
    replace (id k <? Z.of_nat (length l)) with true
      by (symmetry; now apply Z.ltb_lt).
    rewrite DCHECK_true. cbn [mbind Outcome_bind].
    eexists. split; [reflexivity|].
    cbn [table_ ZoneVector.data ZoneVector.capacity].
    rewrite Nat2Z.id, resize_all.
    repeat split; (reflexivity || lia).
Qed.

Lemma view_resize_extend (s s' : t T) :
  size s <= size s' ->
  ZoneVector.data (table_ s') =
    list.resize (Z.to_nat (size s')) T_default (ZoneVector.data (table_ s)) ->
  forall j, view s' j = view s j.
Proof.
  intros Hsz Hd j. unfold GrowingSidetable.view, ZoneVector.view.
  rewrite Hd. apply nth_resize_extend.
  unfold size, ZoneVector.size in *. lia.
Qed.

Lemma load_view (s : t T) (i : Z) :
  0 <= i < size s ->
  ZoneVector.load (Z.to_nat i) (table_ s) = Ok (view s i).
Proof.
  intros Hi. unfold ZoneVector.load, GrowingSidetable.view, ZoneVector.view.
  destruct (nth_lookup_or_length (ZoneVector.data (table_ s)) (Z.to_nat i)
              T_default) as [-> | Hlen]; [reflexivity|].
  unfold size, ZoneVector.size in Hi. lia.
Qed.

Lemma get_effect b k (s : t T) :
  DCHECK b (valid k) = Ok tt ->
  exists s',
    index b k s = Ok (s', Z.to_nat (id k)) /\
    get b k s = Ok (s', view s (id k)) /\
    (forall j, view s' j = view s j) /\
    size s <= size s' /\ id k < size s' /\ capacity s <= capacity s'.
Proof.
  intros Hadm. destruct (index_effect b k s Hadm)
    as (s' & Hidx & Hlt & Hsz & Hcap & Hd & _ & _).
  pose proof (view_resize_extend s s' Hsz Hd) as Hview.
  exists s'. repeat split; try assumption.
  unfold GrowingSidetable.get. rewrite Hidx. cbn [mbind Outcome_bind].
  rewrite load_view by (pose proof (id_uint32 k); lia).
  cbn [mbind Outcome_bind]. now rewrite Hview.
Qed.

Lemma set_effect b k x (s : t T) :
  DCHECK b (valid k) = Ok tt ->
  exists s',
    set b k x s = Ok s' /\
    (forall j, 0 <= j ->
       view s' j = if id k =? j then x else view s j) /\
    size s <= size s' /\ id k < size s' /\ capacity s <= capacity s'.
Proof.
  intros Hadm. destruct (get_effect b k s Hadm)
    as (s1 & Hidx & _ & Hview & Hsz & Hlt & Hcap).
  pose proof (id_uint32 k) as Hk.
  unfold GrowingSidetable.set. rewrite Hidx. cbn [mbind Outcome_bind].
  eexists. split; [reflexivity|].
  unfold size, capacity, ZoneVector.size in *.
  cbn [table_ ZoneVector.store ZoneVector.data ZoneVector.capacity].
  rewrite length_insert.
  repeat split; try assumption.
  intros j Hj. unfold GrowingSidetable.view, ZoneVector.view.
  cbn [table_ ZoneVector.store ZoneVector.data].
  rewrite nth_insert by lia.
  destruct (Z.eqb_spec (id k) j) as [-> | Hne].
  - now rewrite Nat.eqb_refl.
  - replace (Z.to_nat (id k) =? Z.to_nat j)%nat with false
      by (symmetry; apply Nat.eqb_neq; lia).
    apply Hview.
Qed.

Lemma Reset_size (s : t T) : size (Reset s) = size s.
Proof.
  unfold size, ZoneVector.size, GrowingSidetable.Reset, ZoneVector.fill.
  cbn [table_ ZoneVector.data]. now rewrite length_replicate.
Qed.

Lemma Reset_view (s : t T) j : view (Reset s) j = T_default.
Proof.
  unfold GrowingSidetable.view, ZoneVector.view, GrowingSidetable.Reset,
    ZoneVector.fill.
  cbn [table_ ZoneVector.data]. apply nth_replicate_same.
Qed.

Lemma op_valid_checked b (op : Op T Key) :
  op_valid op = true -> op_checked b op = Ok tt.
Proof.
  unfold op_valid, op_checked. destruct (op_key op); [|reflexivity].
  intros ->. apply DCHECK_true.
Qed.

Lemma step_Ok_checked b op (s s' : t T) :
  step b op s = Ok s' -> op_checked b op = Ok tt.
Proof.
  destruct op as [k | k x |]; unfold op_checked; cbn [op_key];
    [| |reflexivity];
    unfold GrowingSidetable.step, GrowingSidetable.get, GrowingSidetable.set,
      GrowingSidetable.index;
    destruct (DCHECK b (valid k)) as [[]| |]; cbn [mbind Outcome_bind];
    (reflexivity || discriminate).
Qed.

(** One operation of a script. *)
Lemma step_effect b op (s : t T) :
  op_checked b op = Ok tt ->
  exists s',
    step b op s = Ok s' /\
    (forall j, 0 <= j -> view s' j = slot_after T_default j op (view s j)) /\
    size s <= size s' /\
    capacity s <= capacity s' /\
    (forall k, op_key op = Some k -> id k < size s').
Proof.
  intros Hadm. destruct op as [k | k x |]; unfold op_checked in Hadm;
    cbn [op_key] in Hadm.
  - destruct (get_effect b k s Hadm)
      as (s' & _ & Hget & Hview & Hsz & Hlt & Hcap).
    exists s'. cbn [GrowingSidetable.step]. rewrite Hget.
    repeat split; try assumption.
    + intros j _. apply Hview.
    + intros k' [= <-]. exact Hlt.
  - destruct (set_effect b k x s Hadm)
      as (s' & Hset & Hview & Hsz & Hlt & Hcap).
    exists s'. cbn [GrowingSidetable.step].
    repeat split; try assumption.
    intros k' [= <-]. exact Hlt.
  - exists (Reset s). cbn [GrowingSidetable.step].
    repeat split.
    + intros j _. apply Reset_view.
    + rewrite Reset_size. lia.
    + reflexivity.
    + intros k' [=].
Qed.

(** A whole script that ran to its end. *)
Lemma run_Ok_effect b ops : forall (s s' : t T),
  run b ops s = Ok s' ->
  (forall j, 0 <= j ->
     view s' j =
     fold_left (fun v op => slot_after T_default j op v) ops (view s j)) /\
  size s <= size s' /\
  capacity s <= capacity s' /\
  (forall o k, In o ops -> op_key o = Some k -> id k < size s').
Proof.
  induction ops as [| op ops IH]; intros s s' Hrun.
  - injection Hrun as <-. cbn. repeat split; [lia | lia | tauto].
  - cbn [GrowingSidetable.run] in Hrun.
    destruct (step b op s) as [s1| |] eqn:Hstep;
      cbn [mbind Outcome_bind] in Hrun; try discriminate.
    destruct (step_effect b op s (step_Ok_checked _ _ _ _ Hstep))
      as (s1' & Hstep' & Hview & Hsz & Hcap & Hkey).
    rewrite Hstep in Hstep'. injection Hstep' as <-.
    destruct (IH _ _ Hrun) as (Hview' & Hsz' & Hcap' & Hkeys').
    repeat split.
    + intros j Hj. cbn [fold_left]. rewrite Hview' by exact Hj.
      now rewrite Hview.
    + lia.
    + lia.
    + intros o k [<- | Hin] Hk.
      * specialize (Hkey _ Hk). lia.
      * now apply (Hkeys' o).
Qed.

(** A script with valid keys runs to its end, in either build. *)
Lemma run_total b ops : forall (s : t T),
  forallb op_valid ops = true -> exists s', run b ops s = Ok s'.
Proof.
  induction ops as [| op ops IH]; intros s Hv.
  - now exists s.
  - cbn [forallb] in Hv. apply andb_prop in Hv as [Hop Hops].
    destruct (step_effect b op s (op_valid_checked b op Hop))
      as (s1 & Hstep & _).
    destruct (IH s1 Hops) as (s' & Hrun).
    exists s'. cbn [GrowingSidetable.run]. now rewrite Hstep.
Qed.

(** In a script of accesses, a slot holds its last written value, or
    what it held before the script. *)
Lemma fold_slot_after_last_write j ops : forall v,
  forallb is_access ops = true ->
  fold_left (fun v op => slot_after T_default j op v) ops v =
  match last_write j ops with Some x => x | None => v end.
Proof.
  induction ops as [| op ops IH]; intros v Hacc; [reflexivity|].
  cbn [forallb] in Hacc. apply andb_prop in Hacc as [Hop Hops].
  cbn [fold_left last_write]. rewrite IH by exact Hops.
  destruct (last_write j ops); [reflexivity|].
  destruct op as [k | k x |]; cbn in *; try reflexivity; try discriminate.
  now destruct (id k =? j).
Qed.

Lemma view_create j : view (create : t T) j = T_default.
Proof.
  unfold GrowingSidetable.view, ZoneVector.view. cbn.
  now destruct (Z.to_nat j).
Qed.

Lemma view_create_filled n x j :
  0 <= j ->
  view (create_filled n x) j = if j <? n then x else T_default.
Proof.
  intros Hj. unfold GrowingSidetable.view, ZoneVector.view. cbn.
  destruct (Z.ltb_spec j n).
  - apply nth_replicate_lt. lia.
  - apply nth_overflow. rewrite length_replicate. lia.
Qed.

(** C1 (as amended). After any script of accesses with valid keys, in
    either build, reading a valid key returns the last value the script
    wrote to its slot and, when the script never wrote to it, the value
    the slot has held since the table was constructed, whatever growth
    happened in between.  That value is [T{}] for every slot of a table
    constructed empty and for every slot at or beyond the initial size of
    a table constructed with [(size, initial_value)]; it is
    [initial_value] for the slots below that size. *)
Theorem growing_read_after_accesses b ops k (s : t T) :
  forallb op_valid ops = true ->
  forallb is_access ops = true ->
  valid k = true ->
  (exists s1 s2,
     run b ops s = Ok s1 /\
     get b k s1 =
       Ok (s2, match last_write (id k) ops with
               | Some x => x
               | None => view s (id k)
               end)) /\
  view (create : t T) (id k) = T_default /\
  (forall n x,
     view (create_filled n x) (id k) =
       if id k <? n then x else T_default).
Proof.
  intros Hops Hacc Hk. pose proof (id_uint32 k) as Hid.
  split; [| split; [apply view_create | intros; apply view_create_filled; lia]].
  destruct (run_total b ops s Hops) as (s1 & Hrun).
  destruct (run_Ok_effect b ops s s1 Hrun) as (Hview & _).
  assert (Hadm : DCHECK b (valid k) = Ok tt)
    by (rewrite Hk; apply DCHECK_true).
  destruct (get_effect b k s1 Hadm) as (s2 & _ & Hget & _).
  exists s1, s2. split; [exact Hrun|].
  rewrite Hget, Hview by lia.
  now rewrite fold_slot_after_last_write.
Qed.

(** C2. An access with a valid key whose id [i] is at or beyond the
    current size succeeds and leaves a table whose size, equal to its
    capacity, is at least [i + i/2 + 32]; the old slots are kept and every
    added slot holds [T{}].  An access below the current size leaves the
    table as it was. *)
Theorem growing_access_grows b k (s : t T) :
  valid k = true ->
  exists s',
    index b k s = Ok (s', Z.to_nat (id k)) /\
    (size s <= id k ->
       id k + id k / 2 + 32 <= size s' /\
       capacity s' = size s' /\
       ZoneVector.data (table_ s') =
         ZoneVector.data (table_ s) ++
         replicate (Z.to_nat (size s' - size s)) T_default) /\
    (id k < size s -> s' = s).
Proof.
  intros Hk.
  assert (Hadm : DCHECK b (valid k) = Ok tt)
    by (rewrite Hk; apply DCHECK_true).
  destruct (index_effect b k s Hadm)
    as (s' & Hidx & Hlt & Hsz & Hcap & Hd & Hsame & Hgrow).
  exists s'. split; [exact Hidx|]. split; [|exact Hsame].
  intros Hge. destruct (Hgrow Hge) as [Hn Hc].
  repeat split; try assumption.
  rewrite Hd. unfold size, ZoneVector.size in *.
  rewrite resize_ge by lia. do 2 f_equal. lia.
Qed.

(** C3. [Reset] overwrites every slot of the table with [T{}], leaves
    size and capacity as they were, and resetting twice is resetting
    once. *)
Theorem Reset_fills_and_is_idempotent (s : t T) :
  ZoneVector.data (table_ (Reset s)) =
    replicate (length (ZoneVector.data (table_ s))) T_default /\
  size (Reset s) = size s /\
  capacity (Reset s) = capacity s /\
  Reset (Reset s) = Reset s.
Proof.
  repeat split.
  - apply Reset_size.
  - unfold GrowingSidetable.Reset, ZoneVector.fill.
    cbn [table_ ZoneVector.data ZoneVector.capacity].
    now rewrite length_replicate.
Qed.

Lemma existsb_access_key (ops : list (Op T Key)) :
  existsb is_access ops = true ->
  exists o k, In o ops /\ op_key o = Some k.
Proof.
  intros Hex. apply existsb_exists in Hex as (o & Hin & Ho).
  exists o. destruct o as [k | k x |]; [exists k | exists k | discriminate];
    now split.
Qed.

Lemma run_resets_create b (ops : list (Op T Key)) :
  existsb is_access ops = false -> run b ops create = Ok create.
Proof.
  induction ops as [| op ops IH]; [reflexivity|].
  cbn [existsb]. intros Hex. apply orb_false_elim in Hex as [Hop Hops].
  destruct op; try discriminate.
  cbn [GrowingSidetable.run GrowingSidetable.step mbind Outcome_bind].
  now apply IH.
Qed.

(** C4 (as amended). [empty()] is true exactly when the table holds no
    slot.  A table constructed empty on which only [Reset] was called
    reports empty; a table constructed with a positive size reports
    non-empty whatever is done to it; and a table that was accessed, hence
    grown, at least once reports non-empty, also after [Reset]. *)
Theorem growing_empty_tells_history b :
  (forall s : t T, empty s = true <-> size s = 0) /\
  (forall ops : list (Op T Key),
     existsb is_access ops = false ->
     exists s', run b ops create = Ok s' /\ empty s' = true) /\
  (forall ops (s s' : t T),
     existsb is_access ops = true ->
     run b ops s = Ok s' -> empty s' = false) /\
  (forall ops n x (s' : t T),
     0 < n ->
     run b ops (create_filled n x) = Ok s' -> empty s' = false).
Proof.
  repeat split.
  - unfold empty, ZoneVector.empty, size. now intros ?%Z.eqb_eq.
  - unfold empty, ZoneVector.empty, size. now intros ->.
  - intros ops Hex. exists create. split; [now apply run_resets_create|].
    reflexivity.
  - intros ops s s' Hex Hrun.
    destruct (existsb_access_key ops Hex) as (o & k & Hin & Hk).
    destruct (run_Ok_effect b ops s s' Hrun) as (_ & _ & _ & Hkeys).
    specialize (Hkeys o k Hin Hk). pose proof (id_uint32 k).
    unfold empty, ZoneVector.empty. fold (size s'). apply Z.eqb_neq. lia.
  - intros ops n x s' Hn Hrun.
    destruct (run_Ok_effect b ops _ s' Hrun) as (_ & Hsz & _).
    assert (size (create_filled n x : t T) = n).
    { unfold size, ZoneVector.size. cbn. rewrite length_replicate. lia. }
    unfold empty, ZoneVector.empty. fold (size s'). apply Z.eqb_neq. lia.
Qed.

(** C8. Whenever a script of accesses and resets runs to its end, the
    final size is at least the id of every key the script indexed, and
    neither the size nor the capacity is below what it was before the
    script; in particular no single access or [Reset] decreases them. *)
Theorem growing_size_covers_keys b ops (s s' : t T) :
  run b ops s = Ok s' ->
  size s <= size s' /\
  capacity s <= capacity s' /\
  (forall o k, In o ops -> op_key o = Some k -> id k <= size s').
Proof.
  intros Hrun.
  destruct (run_Ok_effect b ops s s' Hrun) as (_ & Hsz & Hcap & Hkeys).
  repeat split; try assumption.
  intros o k Hin Hk. specialize (Hkeys o k Hin Hk). lia.
Qed.

(** C9. The const accessor is the mutable accessor: for every build, key
    and table, both leave the same table behind (grown by the same
    formula, with the same slots value-initialised), refer to the same
    slot and read the same value. *)
Theorem const_accessor_same_effect b k (s : t T) :
  index_const b k s = index b k s /\
  get_const b k s = get b k s.
Proof. split; reflexivity. Qed.
End GrowingFacts.

(** ** The fixed container *)

Section FixedFacts.
Context {T Key : Type} `{SidetableKey Key}.
Variable T_default : T.

Import FixedSidetable.

Local Abbreviation view := (view T_default).

Lemma fixed_index_in_bounds b k (s : t T) :
  id k < size s -> index b k s = Ok (s, Z.to_nat (id k)).
Proof.
  intros Hlt. unfold FixedSidetable.index, ZoneVector.at_.
  fold (size s).
  replace (id k <? size s) with true by (symmetry; now apply Z.ltb_lt).
  now rewrite DCHECK_true.
Qed.

Lemma fixed_index_out_of_bounds k (s : t T) :
  size s <= id k ->
  index Debug k s = Fatal /\ index Release k s = Undefined.
Proof.
  intros Hge. unfold FixedSidetable.index, ZoneVector.at_.
  fold (size s).
  replace (id k <? size s) with false by (symmetry; now apply Z.ltb_ge).
  now split.
Qed.

Lemma fixed_get_in_bounds b k (s : t T) :
  id k < size s -> get b k s = Ok (s, view s (id k)).
Proof.
  intros Hlt. unfold FixedSidetable.get.
  rewrite fixed_index_in_bounds by exact Hlt. cbn [mbind Outcome_bind].
  unfold ZoneVector.load, FixedSidetable.view, ZoneVector.view.
  destruct (nth_lookup_or_length (ZoneVector.data (table_ s))
              (Z.to_nat (id k)) T_default) as [-> | Hlen]; [reflexivity|].
  pose proof (id_uint32 k). unfold size, ZoneVector.size in Hlt. lia.
Qed.

(** The same three facts for the [const] overload. *)
Lemma fixed_index_const_in_bounds b k (s : t T) :
  id k < size s -> index_const b k s = Ok (s, Z.to_nat (id k)).
Proof.
  intros Hlt. unfold FixedSidetable.index_const, ZoneVector.at_.
  fold (size s).
  replace (id k <? size s) with true by (symmetry; now apply Z.ltb_lt).
  now rewrite DCHECK_true.
Qed.

Lemma fixed_index_const_out_of_bounds k (s : t T) :
  size s <= id k ->
  index_const Debug k s = Fatal /\ index_const Release k s = Undefined.
Proof.
  intros Hge. unfold FixedSidetable.index_const, ZoneVector.at_.
  fold (size s).
  replace (id k <? size s) with false by (symmetry; now apply Z.ltb_ge).
  now split.
Qed.

Lemma fixed_get_const_in_bounds b k (s : t T) :
  id k < size s -> get_const b k s = Ok (s, view s (id k)).
Proof.
  intros Hlt. unfold FixedSidetable.get_const.
  rewrite fixed_index_const_in_bounds by exact Hlt.
  cbn [mbind Outcome_bind].
  unfold ZoneVector.load, FixedSidetable.view, ZoneVector.view.
  destruct (nth_lookup_or_length (ZoneVector.data (table_ s))
              (Z.to_nat (id k)) T_default) as [-> | Hlen]; [reflexivity|].
  pose proof (id_uint32 k). unfold size, ZoneVector.size in Hlt. lia.
Qed.

Lemma fixed_step_in_bounds b op (s : t T) :
  op_in_range (size s) op = true ->
  exists s',
    step b op s = Ok s' /\
    size s' = size s /\ capacity s' = capacity s /\
    (forall j, 0 <= j ->
       view s' j =
       match op with
       | Write k x => if id k =? j then x else view s j
       | Read _ | ReadConst _ => view s j
       end).
Proof.
  unfold op_in_range. intros Hin%Z.ltb_lt.
  destruct op as [k | k | k x]; cbn [op_key] in Hin;
    cbn [FixedSidetable.step].
  - exists s. rewrite fixed_get_in_bounds by exact Hin. now repeat split.
  - exists s. rewrite fixed_get_const_in_bounds by exact Hin.
    now repeat split.
  - unfold FixedSidetable.set.
    rewrite fixed_index_in_bounds by exact Hin. cbn [mbind Outcome_bind].
    eexists. split; [reflexivity|].
    unfold size, capacity, ZoneVector.size, FixedSidetable.view,
      ZoneVector.view in *.
    cbn [table_ ZoneVector.store ZoneVector.data ZoneVector.capacity].
    rewrite length_insert. repeat split.
    intros j Hj. pose proof (id_uint32 k).
    rewrite nth_insert by lia.
    destruct (Z.eqb_spec (id k) j) as [-> | Hne].
    + now rewrite Nat.eqb_refl.
    + replace (Z.to_nat (id k) =? Z.to_nat j)%nat with false
        by (symmetry; apply Nat.eqb_neq; lia).
      reflexivity.
Qed.

Lemma fixed_run_in_bounds b ops : forall (s : t T),
  forallb (op_in_range (size s)) ops = true ->
  exists s',
    run b ops s = Ok s' /\
    size s' = size s /\ capacity s' = capacity s /\
    (forall j, 0 <= j ->
       view s' j =
       match last_write j ops with Some x => x | None => view s j end).
Proof.
  induction ops as [| op ops IH]; intros s Hin.
  - exists s. now repeat split.
  - cbn [forallb] in Hin. apply andb_prop in Hin as [Hop Hops].
    destruct (fixed_step_in_bounds b op s Hop)
      as (s1 & Hstep & Hsz & Hcap & Hview).
    rewrite <- Hsz in Hops.
    destruct (IH s1 Hops) as (s' & Hrun & Hsz' & Hcap' & Hview').
    exists s'. cbn [FixedSidetable.run]. rewrite Hstep.
    cbn [mbind Outcome_bind].
    repeat split; try congruence.
    intros j Hj. rewrite Hview' by exact Hj. cbn [last_write].
    destruct (last_write j ops); [reflexivity|].
    rewrite Hview by exact Hj.
    destruct op as [k | k | k x]; [reflexivity | reflexivity |].
    now destruct (id k =? j).
Qed.

Lemma fixed_create_filled_size n (d : T) :
  0 <= n -> size (create_filled n d) = n.
Proof.
  intros Hn. unfold size, ZoneVector.size. cbn.
  rewrite length_replicate. lia.
Qed.

(** C6. A fixed table constructed with capacity [N] (every slot holding
    the construction default: [T{}], or the [default_value] given) keeps
    size and capacity [N] through any script of accesses with ids below
    [N], through either overload of [operator[]], all of which succeed;
    an access to an id below [N], mutable or const, then succeeds, refers
    to the slot of that id, leaves the table as it is, and reads the last
    value written to the slot, or the construction default when it was
    never written.  An access with an id at or beyond the size, mutable or
    const, aborts in a debug build and is unchecked, hence undefined, in a
    release build; and no access that returns, through either overload,
    changes size or capacity. *)
Theorem fixed_access_within_capacity b N (d : T) ops k :
  0 <= N ->
  forallb (op_in_range N) ops = true ->
  id k < N ->
  create T_default N = create_filled N T_default /\
  (exists s1,
     run b ops (create_filled N d) = Ok s1 /\
     size s1 = N /\ capacity s1 = N /\
     index b k s1 = Ok (s1, Z.to_nat (id k)) /\
     index_const b k s1 = Ok (s1, Z.to_nat (id k)) /\
     get b k s1 =
       Ok (s1, match last_write (id k) ops with
               | Some x => x
               | None => d
               end) /\
     get_const b k s1 =
       Ok (s1, match last_write (id k) ops with
               | Some x => x
               | None => d
               end)) /\
  (forall (s : t T) k',
     size s <= id k' ->
     (index Debug k' s = Fatal /\ index Release k' s = Undefined) /\
     (index_const Debug k' s = Fatal /\
      index_const Release k' s = Undefined)) /\
  (forall b' (s s' : t T) op,
     step b' op s = Ok s' -> size s' = size s /\ capacity s' = capacity s) /\
  (forall b' (s s' : t T) k' r,
     index b' k' s = Ok (s', r) \/ index_const b' k' s = Ok (s', r) ->
     s' = s /\ r = Z.to_nat (id k') /\ id k' < size s).
Proof.
  intros HN Hops Hk. pose proof (id_uint32 k) as Hid.
  split; [reflexivity|]. split; [|split; [|split]].
  - pose proof (fixed_create_filled_size N d HN) as Hsz0.
    rewrite <- Hsz0 in Hops.
    destruct (fixed_run_in_bounds b ops _ Hops)
      as (s1 & Hrun & Hsz & Hcap & Hview).
    exists s1. rewrite Hsz0 in Hsz.
    assert (Hval : view s1 (id k) =
                   match last_write (id k) ops with
                   | Some x => x
                   | None => d
                   end).
    { rewrite Hview by lia.
      destruct (last_write (id k) ops); [reflexivity|].
      unfold FixedSidetable.view, ZoneVector.view. cbn.
      rewrite nth_replicate_lt by lia. reflexivity. }
    split; [exact Hrun|]. split; [exact Hsz|]. split; [exact Hcap|].
    split; [apply fixed_index_in_bounds; lia|].
    split; [apply fixed_index_const_in_bounds; lia|].
    split.
    + rewrite fixed_get_in_bounds by lia. now rewrite Hval.
    + rewrite fixed_get_const_in_bounds by lia. now rewrite Hval.
  - intros s k' Hge. split.
    + now apply fixed_index_out_of_bounds.
    + now apply fixed_index_const_out_of_bounds.
  - intros b' s s' op Hstep.
    destruct (Z.ltb_spec (id (op_key op)) (size s)) as [Hin | Hout].
    + destruct (fixed_step_in_bounds b' op s) as (s1 & Hs1 & Hsz & Hcap & _).
      { unfold op_in_range. now apply Z.ltb_lt. }
      rewrite Hstep in Hs1. injection Hs1 as <-. now split.
    + exfalso.
      destruct (fixed_index_out_of_bounds (op_key op) s Hout) as [HD HR].
      destruct (fixed_index_const_out_of_bounds (op_key op) s Hout)
        as [HDc HRc].
      destruct op as [k0 | k0 | k0 x]; cbn [op_key] in *;
        unfold FixedSidetable.step, FixedSidetable.get,
          FixedSidetable.get_const, FixedSidetable.set in Hstep;
        destruct b'; rewrite ?HD, ?HR, ?HDc, ?HRc in Hstep; discriminate.
  - intros b' s s' k' r Hacc.
    destruct (Z.lt_ge_cases (id k') (size s)) as [Hin | Hout].
    + rewrite fixed_index_in_bounds, fixed_index_const_in_bounds in Hacc
        by exact Hin.
      destruct Hacc as [[= <- <-] | [= <- <-]]; now repeat split.
    + exfalso.
      destruct (fixed_index_out_of_bounds k' s Hout) as [HD HR].
      destruct (fixed_index_const_out_of_bounds k' s Hout) as [HDc HRc].
      destruct b'; rewrite ?HD, ?HR, ?HDc, ?HRc in Hacc;
        destruct Hacc; discriminate.
Qed.
End FixedFacts.

(** ** Node-keyed and block-keyed tables *)

Section KeyedFacts.
Context {Graph T : Type}.
Variable T_default : T.
Variable NewCapacity : Z -> Z -> Z.
Hypothesis NewCapacity_ge :
  forall cap minimum, minimum <= NewCapacity cap minimum.
Variable OpIndexBelongsToTableGraph : Graph -> OpIndex -> bool.

Local Abbreviation GrowingOp b := (GrowingOpIndexSidetable.t b Graph T).
Local Abbreviation Gbase := GrowingOpIndexSidetable.base.
Local Abbreviation Ggraph := GrowingOpIndexSidetable.graph_.
Local Abbreviation Gindex :=
  (GrowingOpIndexSidetable.index T_default NewCapacity
     OpIndexBelongsToTableGraph).
Local Abbreviation Gindex_const :=
  (GrowingOpIndexSidetable.index_const T_default NewCapacity
     OpIndexBelongsToTableGraph).
Local Abbreviation Gread :=
  (GrowingOpIndexSidetable.read T_default NewCapacity
     OpIndexBelongsToTableGraph).
Local Abbreviation Gview := (GrowingSidetable.view T_default).

Local Abbreviation FixedOp b := (FixedOpIndexSidetable.t b Graph T).
Local Abbreviation Fbase := FixedOpIndexSidetable.base.
Local Abbreviation Fgraph := FixedOpIndexSidetable.graph_.
Local Abbreviation Findex :=
  (FixedOpIndexSidetable.index OpIndexBelongsToTableGraph).
Local Abbreviation Findex_const :=
  (FixedOpIndexSidetable.index_const OpIndexBelongsToTableGraph).
Local Abbreviation Fread :=
  (FixedOpIndexSidetable.read OpIndexBelongsToTableGraph).
Local Abbreviation Fview := (FixedSidetable.view T_default).

Local Abbreviation check := (DCHECK_graph OpIndexBelongsToTableGraph).

Lemma growing_base_eta (s : GrowingSidetable.t T) :
  {| GrowingSidetable.table_ := GrowingSidetable.table_ s |} = s.
Proof. now destruct s. Qed.

Lemma fixed_base_eta (s : FixedSidetable.t T) :
  {| FixedSidetable.table_ := FixedSidetable.table_ s |} = s.
Proof. now destruct s. Qed.

(** C7. A node-keyed table, growing or fixed, records at construction
    the graph it is given, in a debug build; there every access, mutable
    or const, first checks the index against that graph and aborts when
    the index does not belong to it, and otherwise is the access of the
    generic container.  A release build makes no such check: the access is
    that of the generic container whatever the index.  The block-keyed
    tables are the generic containers themselves. *)
Theorem node_keyed_access_checks_graph :
  (forall (g : Graph) n (x : T),
     Ggraph (GrowingOpIndexSidetable.create Debug g : GrowingOp Debug) = g /\
     Ggraph (GrowingOpIndexSidetable.create_filled Debug n x g) = g /\
     Fgraph (FixedOpIndexSidetable.create T_default Debug n g) = g /\
     Fgraph (FixedOpIndexSidetable.create_filled Debug n x g) = g) /\
  (forall (s : GrowingOp Debug) i,
     OpIndexBelongsToTableGraph (Ggraph s) i = false ->
     Gindex Debug i s = Fatal /\ Gindex_const Debug i s = Fatal) /\
  (forall (s : FixedOp Debug) i,
     OpIndexBelongsToTableGraph (Fgraph s) i = false ->
     Findex Debug i s = Fatal /\ Findex_const Debug i s = Fatal) /\
  (forall b (s : GrowingOp b) i,
     check b (Ggraph s) i = Ok tt ->
     Gindex b i s =
       ('(base', r) ← GrowingSidetable.index T_default NewCapacity b i
                        (Gbase s);
        Ok ({| GrowingOpIndexSidetable.base := base';
               GrowingOpIndexSidetable.graph_ := Ggraph s |}, r))) /\
  (forall b (s : FixedOp b) i,
     check b (Fgraph s) i = Ok tt ->
     Findex b i s =
       ('(base', r) ← FixedSidetable.index b i (Fbase s);
        Ok ({| FixedOpIndexSidetable.base := base';
               FixedOpIndexSidetable.graph_ := Fgraph s |}, r))) /\
  (forall (s : GrowingOp Release) i, check Release (Ggraph s) i = Ok tt) /\
  (forall (s : FixedOp Release) i, check Release (Fgraph s) i = Ok tt) /\
  (forall b (k : BlockIndex) (s : GrowingBlockSidetable.t),
     GrowingBlockSidetable.index T_default NewCapacity b k s =
       GrowingSidetable.index T_default NewCapacity b k s /\
     GrowingBlockSidetable.index_const T_default NewCapacity b k s =
       GrowingSidetable.index_const T_default NewCapacity b k s) /\
  (forall b (k : BlockIndex) (s : FixedBlockSidetable.t (T := T)),
     FixedBlockSidetable.index b k s = FixedSidetable.index b k s /\
     FixedBlockSidetable.index_const b k s =
       FixedSidetable.index_const b k s).
Proof.
  split; [now intros g n x|].
  split; [intros s i Hno; split|].
  { unfold GrowingOpIndexSidetable.index. cbn. now rewrite Hno. }
  { unfold GrowingOpIndexSidetable.index_const. cbn. now rewrite Hno. }
  split; [intros s i Hno; split|].
  { unfold FixedOpIndexSidetable.index. cbn. now rewrite Hno. }
  { unfold FixedOpIndexSidetable.index_const. cbn. now rewrite Hno. }
  split; [intros b s i Hyes|].
  { unfold GrowingOpIndexSidetable.index. now rewrite Hyes. }
  split; [intros b s i Hyes|].
  { unfold FixedOpIndexSidetable.index. now rewrite Hyes. }
  repeat split.
Qed.

(** C10. [SwapData] leaves the graph binding of both tables as it was:
    after the swap an access to a table is the access to the storage it
    received under the graph it was constructed with, so it is checked
    against its own graph, not against the graph of the table whose storage
    it received; in a debug build an index foreign to the table's own graph
    is still refused. *)
Theorem SwapData_keeps_graph_binding :
  (forall b (s other : GrowingOp b),
     Ggraph (fst (GrowingOpIndexSidetable.SwapData s other)) = Ggraph s /\
     Ggraph (snd (GrowingOpIndexSidetable.SwapData s other)) = Ggraph other /\
     (forall i,
        Gindex b i (fst (GrowingOpIndexSidetable.SwapData s other)) =
        Gindex b i
          {| GrowingOpIndexSidetable.base := Gbase other;
             GrowingOpIndexSidetable.graph_ := Ggraph s |})) /\
  (forall b (s other : FixedOp b),
     Fgraph (fst (FixedOpIndexSidetable.SwapData s other)) = Fgraph s /\
     Fgraph (snd (FixedOpIndexSidetable.SwapData s other)) = Fgraph other /\
     (forall i,
        Findex b i (fst (FixedOpIndexSidetable.SwapData s other)) =
        Findex b i
          {| FixedOpIndexSidetable.base := Fbase other;
             FixedOpIndexSidetable.graph_ := Fgraph s |})) /\
  (forall (s other : GrowingOp Debug) i,
     OpIndexBelongsToTableGraph (Ggraph s) i = false ->
     Gindex Debug i (fst (GrowingOpIndexSidetable.SwapData s other)) = Fatal) /\
  (forall (s other : FixedOp Debug) i,
     OpIndexBelongsToTableGraph (Fgraph s) i = false ->
     Findex Debug i (fst (FixedOpIndexSidetable.SwapData s other)) = Fatal).
Proof.
  split; [|split; [|split]].
  - intros b s other. repeat split. intros i.
    unfold GrowingOpIndexSidetable.SwapData. cbn [fst].
    now rewrite growing_base_eta.
  - intros b s other. repeat split. intros i.
    unfold FixedOpIndexSidetable.SwapData. cbn [fst].
    now rewrite fixed_base_eta.
  - intros s other i Hno.
    unfold GrowingOpIndexSidetable.index, GrowingOpIndexSidetable.SwapData.
    cbn. now rewrite Hno.
  - intros s other i Hno.
    unfold FixedOpIndexSidetable.index, FixedOpIndexSidetable.SwapData.
    cbn. now rewrite Hno.
Qed.

(** A read that passes the graph check returns what the storage holds at
    the index. *)
Lemma growing_read_storage b i (s : GrowingOp b) :
  check b (Ggraph s) i = Ok tt ->
  valid i = true ->
  Gread b i s = Ok (Gview (Gbase s) (id i)).
Proof.
  intros Hcheck Hvalid.
  assert (Hadm : DCHECK b (valid i) = Ok tt)
    by (rewrite Hvalid; apply DCHECK_true).
  destruct (get_effect T_default NewCapacity NewCapacity_ge b i (Gbase s) Hadm)
    as (s' & Hidx & Hget & _).
  unfold GrowingOpIndexSidetable.read, GrowingOpIndexSidetable.get,
    GrowingOpIndexSidetable.index.
  rewrite Hcheck. cbn [mbind Outcome_bind]. rewrite Hidx.
  cbn [mbind Outcome_bind GrowingOpIndexSidetable.base].
  unfold GrowingSidetable.get in Hget. rewrite Hidx in Hget.
  cbn [mbind Outcome_bind] in Hget.
  destruct (ZoneVector.load (Z.to_nat (id i)) (GrowingSidetable.table_ s'))
    as [x| |]; cbn [mbind Outcome_bind] in *; congruence.
Qed.

Lemma fixed_read_storage b i (s : FixedOp b) :
  check b (Fgraph s) i = Ok tt ->
  id i < FixedSidetable.size (Fbase s) ->
  Fread b i s = Ok (Fview (Fbase s) (id i)).
Proof.
  intros Hcheck Hin.
  pose proof (fixed_get_in_bounds T_default b i (Fbase s) Hin) as Hget.
  unfold FixedOpIndexSidetable.read, FixedOpIndexSidetable.get,
    FixedOpIndexSidetable.index.
  rewrite Hcheck. cbn [mbind Outcome_bind].
  rewrite fixed_index_in_bounds by exact Hin.
  cbn [mbind Outcome_bind FixedOpIndexSidetable.base].
  unfold FixedSidetable.get in Hget.
  rewrite fixed_index_in_bounds in Hget by exact Hin.
  cbn [mbind Outcome_bind] in Hget.
  destruct (ZoneVector.load (Z.to_nat (id i)) (FixedSidetable.table_ (Fbase s)))
    as [x| |]; cbn [mbind Outcome_bind] in *; congruence.
Qed.

(** C5. [SwapData] on two node-keyed tables of the same kind, whatever
    their sizes, exchanges their storage: each table ends with the slots,
    the size and the capacity the other had, so that an accepted read of an
    index returns from each table what the other held at that index before
    the swap; and swapping twice gives back the two original tables. *)
Theorem SwapData_exchanges_storage b :
  (forall s other : GrowingOp b,
     let sw := GrowingOpIndexSidetable.SwapData s other in
     Gbase (fst sw) = Gbase other /\
     Gbase (snd sw) = Gbase s /\
     (GrowingSidetable.size (Gbase (fst sw))
        = GrowingSidetable.size (Gbase other) /\
      GrowingSidetable.capacity (Gbase (fst sw))
        = GrowingSidetable.capacity (Gbase other) /\
      GrowingSidetable.size (Gbase (snd sw))
        = GrowingSidetable.size (Gbase s) /\
      GrowingSidetable.capacity (Gbase (snd sw))
        = GrowingSidetable.capacity (Gbase s)) /\
     GrowingOpIndexSidetable.SwapData (fst sw) (snd sw) = (s, other) /\
     (forall i,
        valid i = true ->
        (check b (Ggraph s) i = Ok tt ->
         Gread b i (fst sw) = Ok (Gview (Gbase other) (id i))) /\
        (check b (Ggraph other) i = Ok tt ->
         Gread b i (snd sw) = Ok (Gview (Gbase s) (id i))))) /\
  (forall s other : FixedOp b,
     let sw := FixedOpIndexSidetable.SwapData s other in
     Fbase (fst sw) = Fbase other /\
     Fbase (snd sw) = Fbase s /\
     (FixedSidetable.size (Fbase (fst sw))
        = FixedSidetable.size (Fbase other) /\
      FixedSidetable.capacity (Fbase (fst sw))
        = FixedSidetable.capacity (Fbase other) /\
      FixedSidetable.size (Fbase (snd sw))
        = FixedSidetable.size (Fbase s) /\
      FixedSidetable.capacity (Fbase (snd sw))
        = FixedSidetable.capacity (Fbase s)) /\
     FixedOpIndexSidetable.SwapData (fst sw) (snd sw) = (s, other) /\
     (forall i,
        (check b (Fgraph s) i = Ok tt ->
         id i < FixedSidetable.size (Fbase other) ->
         Fread b i (fst sw) = Ok (Fview (Fbase other) (id i))) /\
        (check b (Fgraph other) i = Ok tt ->
         id i < FixedSidetable.size (Fbase s) ->
         Fread b i (snd sw) = Ok (Fview (Fbase s) (id i))))).
Proof.
  split; intros s other sw; subst sw.
  - assert (H1 : Gbase (fst (GrowingOpIndexSidetable.SwapData s other))
                 = Gbase other)
      by apply growing_base_eta.
    assert (H2 : Gbase (snd (GrowingOpIndexSidetable.SwapData s other))
                 = Gbase s)
      by apply growing_base_eta.
    split; [exact H1|]. split; [exact H2|].
    split; [now rewrite H1, H2|]. split.
    + destruct s as [[ts] gs], other as [[to] go]. reflexivity.
    + intros i Hvalid. split; intros Hcheck.
      * rewrite <- H1. now apply growing_read_storage.
      * rewrite <- H2. now apply growing_read_storage.
  - assert (H1 : Fbase (fst (FixedOpIndexSidetable.SwapData s other))
                 = Fbase other)
      by apply fixed_base_eta.
    assert (H2 : Fbase (snd (FixedOpIndexSidetable.SwapData s other)) = Fbase s)
      by apply fixed_base_eta.
    split; [exact H1|]. split; [exact H2|].
    split; [now rewrite H1, H2|]. split.
    + destruct s as [[ts] gs], other as [[to] go]. reflexivity.
    + intros i. split; intros Hcheck Hin.
      * rewrite <- H1 in Hin |- *. now apply fixed_read_storage.
      * rewrite <- H2 in Hin |- *. now apply fixed_read_storage.
Qed.
End KeyedFacts.

(** ** Laws of the growing container *)

Section GrowingLaws.
Context {T Key : Type} `{SidetableKey Key}.
Variable T_default : T.
Variable NewCapacity : Z -> Z -> Z.
Hypothesis NewCapacity_ge :
  forall cap minimum, minimum <= NewCapacity cap minimum.

Import GrowingSidetable.

Local Abbreviation index := (index T_default NewCapacity).
Local Abbreviation get := (get T_default NewCapacity).
Local Abbreviation set := (set T_default NewCapacity).
Local Abbreviation step := (step T_default NewCapacity).
Local Abbreviation run := (run T_default NewCapacity).
Local Abbreviation growths := (growths T_default NewCapacity).
Local Abbreviation Reset := (Reset T_default).
Local Abbreviation view := (view T_default).
Local Abbreviation index_effect :=
  (index_effect T_default NewCapacity NewCapacity_ge).
Local Abbreviation get_effect :=
  (get_effect T_default NewCapacity NewCapacity_ge).
Local Abbreviation set_effect :=
  (set_effect T_default NewCapacity NewCapacity_ge).

Lemma index_invalid_Debug k (s : t T) :
  valid k = false -> index Debug k s = Fatal.
Proof. intros Hk. unfold GrowingSidetable.index. cbn. now rewrite Hk. Qed.

(** X1. The only way an access to a growing table fails is the validity
    check of a debug build: with an invalid key the debug access aborts;
    with a valid key the access returns in a debug build (so neither the
    assertion of [NextSize] nor the bound check of the vector fires); and
    in a release build it returns for every key, valid or not, always
    referring to a slot inside the table. *)
Theorem growing_access_only_fails_validity k (s : t T) :
  (valid k = false -> index Debug k s = Fatal) /\
  (valid k = true ->
   exists s', index Debug k s = Ok (s', Z.to_nat (id k)) /\ id k < size s') /\
  (exists s', index Release k s = Ok (s', Z.to_nat (id k)) /\ id k < size s').
Proof.
  split; [apply index_invalid_Debug|]. split.
  - intros Hk.
    destruct (index_effect Debug k s) as (s' & Hidx & Hlt & _).
    { rewrite Hk. reflexivity. }
    now exists s'.
  - destruct (index_effect Release k s eq_refl) as (s' & Hidx & Hlt & _).
    now exists s'.
Qed.

Lemma size_half_mono n m : n <= m -> n + n / 2 + 32 <= m + m / 2 + 32.
Proof.
  intros Hnm. assert (n / 2 <= m / 2) by (apply Z.div_le_mono; lia). lia.
Qed.

(** X2. Growth is geometric and pays for the accesses that follow: an
    access with a valid key at or beyond the size leaves a table of at
    least one and a half times the old size plus 32 slots, and after it
    every valid key with an id below [i + i/2 + 32] is accessed without
    any change to the table. *)
Theorem growing_growth_is_geometric b k (s : t T) :
  valid k = true ->
  size s <= id k ->
  exists s',
    index b k s = Ok (s', Z.to_nat (id k)) /\
    size s + size s / 2 + 32 <= size s' /\
    (forall k',
       valid k' = true ->
       id k' < id k + id k / 2 + 32 ->
       index b k' s' = Ok (s', Z.to_nat (id k'))).
Proof.
  intros Hk Hge.
  assert (Hadm : DCHECK b (valid k) = Ok tt)
    by (rewrite Hk; apply DCHECK_true).
  destruct (index_effect b k s Hadm)
    as (s' & Hidx & _ & _ & _ & _ & _ & Hgrow).
  destruct (Hgrow Hge) as [Hn _].
  exists s'. split; [exact Hidx|]. split.
  - pose proof (size_half_mono _ _ Hge). lia.
  - intros k' Hk' Hlt.
    assert (Hadm' : DCHECK b (valid k') = Ok tt)
      by (rewrite Hk'; apply DCHECK_true).
    destruct (index_effect b k' s' Hadm')
      as (s'' & Hidx' & _ & _ & _ & _ & Hsame & _).
    rewrite Hidx'. now rewrite (Hsame ltac:(lia)).
Qed.

(** A successful operation on a key is an access followed, for a write, by
    an assignment that leaves size and capacity alone. *)
Lemma step_access b op k (s s1 : t T) :
  step b op s = Ok s1 ->
  op_key op = Some k ->
  exists s',
    index b k s = Ok (s', Z.to_nat (id k)) /\
    size s1 = size s' /\ capacity s1 = capacity s' /\
    size s <= size s' /\
    (id k < size s -> s' = s) /\
    (size s <= id k ->
       id k + id k / 2 + 32 <= size s' /\ capacity s' = size s').
Proof.
  intros Hstep Hkey.
  pose proof (step_Ok_checked _ _ _ _ _ _ Hstep) as Hadm.
  unfold op_checked in Hadm. rewrite Hkey in Hadm.
  destruct (index_effect b k s Hadm)
    as (s' & Hidx & _ & Hsz & _ & _ & Hsame & Hgrow).
  exists s'. split; [exact Hidx|].
  destruct op as [k0 | k0 x |]; cbn [op_key] in Hkey; try discriminate;
    injection Hkey as ->; cbn [GrowingSidetable.step] in Hstep.
  - unfold GrowingSidetable.get in Hstep. rewrite Hidx in Hstep.
    cbn [mbind Outcome_bind] in Hstep.
    destruct (ZoneVector.load (Z.to_nat (id k)) (table_ s')) as [x| |];
      cbn [mbind Outcome_bind] in Hstep; try discriminate.
    injection Hstep as <-.
    split; [reflexivity|]. split; [reflexivity|]. split; [exact Hsz|].
    split; assumption.
  - unfold GrowingSidetable.set in Hstep. rewrite Hidx in Hstep.
    cbn [mbind Outcome_bind] in Hstep. injection Hstep as <-.
    unfold size, capacity, ZoneVector.size in *.
    cbn [table_ ZoneVector.store ZoneVector.data ZoneVector.capacity].
    rewrite length_insert.
    split; [reflexivity|]. split; [reflexivity|]. split; [exact Hsz|].
    split; assumption.
Qed.

Lemma least_size_after_limit : 2 ^ 32 <= least_size_after growth_limit.
Proof. vm_compute. discriminate. Qed.

Lemma growths_budget b ops : forall (s : t T) (g : nat),
  (g <= growth_limit)%nat ->
  least_size_after g <= size s ->
  (growths b ops s + g <= growth_limit)%nat.
Proof.
  induction ops as [| op ops IH]; intros s g Hg Hsz; [cbn; lia|].
  cbn [GrowingSidetable.growths].
  destruct (step b op s) as [s1| |] eqn:Hstep; [|cbn; lia..].
  unfold op_grows.
  destruct (op_key op) as [k|] eqn:Hkey.
  - destruct (step_access b op k s s1 Hstep Hkey)
      as (s' & _ & Hs1 & _ & Hmono & _ & Hgrow).
    unfold grows. fold (size s).
    destruct (Z.leb_spec (size s) (id k)) as [Hge | Hlt].
    + destruct (Hgrow Hge) as [Hn _]. pose proof (id_uint32 k) as Hid.
      assert (g <> growth_limit).
      { intros ->. pose proof least_size_after_limit. lia. }
      assert (Hnext : least_size_after (S g) <= size s1).
      { cbn [least_size_after]. cbv zeta.
        pose proof (size_half_mono _ _ Hsz).
        pose proof (size_half_mono _ _ Hge). lia. }
      specialize (IH s1 (S g) ltac:(lia) Hnext). lia.
    + specialize (IH s1 g Hg ltac:(lia)). lia.
  - assert (Hsz1 : size s <= size s1).
    { destruct (step_effect T_default NewCapacity NewCapacity_ge b op s)
        as (s1' & Hstep' & _ & Hle & _).
      - unfold op_checked. now rewrite Hkey.
      - rewrite Hstep in Hstep'. now injection Hstep' as <-. }
    specialize (IH s1 g Hg ltac:(lia)). lia.
Qed.

(** X3. Whatever script of reads, writes and resets runs on a growing
    table, from whatever table, at most 45 of its accesses grow the table:
    every growth leaves at least one and a half times the old size plus 32
    slots, and an access grows only while its 32-bit id is at or beyond the
    size. *)
Theorem growing_growths_bounded b ops (s : t T) :
  (growths b ops s <= growth_limit)%nat /\
  2 ^ 32 <= least_size_after growth_limit.
Proof.
  split; [|apply least_size_after_limit].
  pose proof (growths_budget b ops s 0%nat ltac:(unfold growth_limit; lia))
    as Hb.
  cbn [least_size_after] in Hb.
  assert (0 <= size s) by (unfold size, ZoneVector.size; lia).
  specialize (Hb ltac:(lia)). lia.
Qed.

Lemma growths_positive_inv b ops : forall (s : t T),
  (0 < growths b ops s)%nat ->
  exists before op after s1 s2 k,
    ops = before ++ op :: after /\
    run b before s = Ok s1 /\
    step b op s1 = Ok s2 /\
    op_key op = Some k /\ size s1 <= id k.
Proof.
  induction ops as [| op ops IH]; intros s Hpos; [cbn in Hpos; lia|].
  cbn [GrowingSidetable.growths] in Hpos.
  destruct (step b op s) as [s1| |] eqn:Hstep; [|lia..].
  destruct (op_grows op s) eqn:Hgrows.
  - unfold op_grows in Hgrows.
    destruct (op_key op) as [k|] eqn:Hkey; [|discriminate].
    exists [], op, ops, s, s1, k. repeat split; try assumption.
    unfold grows in Hgrows. now apply Z.leb_le in Hgrows.
  - destruct (IH s1 ltac:(lia))
      as (before & op' & after & s2 & s3 & k & -> & Hrun & Hstep' & Hk & Hge).
    exists (op :: before), op', after, s2, s3, k.
    repeat split; try assumption.
    cbn [GrowingSidetable.run]. rewrite Hstep. exact Hrun.
Qed.

Lemma step_keeps_capacity_size b op (s s1 : t T) :
  step b op s = Ok s1 ->
  capacity s = size s -> capacity s1 = size s1.
Proof.
  intros Hstep Heq.
  destruct (op_key op) as [k|] eqn:Hkey.
  - destruct (step_access b op k s s1 Hstep Hkey)
      as (s' & _ & Hs1 & Hc1 & _ & Hsame & Hgrow).
    destruct (Z.lt_ge_cases (id k) (size s)) as [Hlt | Hge].
    + rewrite (Hsame Hlt) in *. congruence.
    + destruct (Hgrow Hge) as [_ Hc]. congruence.
  - destruct op; try discriminate.
    cbn [GrowingSidetable.step] in Hstep. injection Hstep as <-.
    rewrite Reset_size. exact Heq.
Qed.

Lemma run_keeps_capacity_size b ops : forall (s s' : t T),
  run b ops s = Ok s' ->
  capacity s = size s -> capacity s' = size s'.
Proof.
  induction ops as [| op ops IH]; intros s s' Hrun Heq.
  - now injection Hrun as <-.
  - cbn [GrowingSidetable.run] in Hrun.
    destruct (step b op s) as [s1| |] eqn:Hstep;
      cbn [mbind Outcome_bind] in Hrun; try discriminate.
    eapply IH; [exact Hrun|].
    eapply step_keeps_capacity_size; eassumption.
Qed.

Lemma run_app b ops1 : forall ops2 (s : t T),
  run b (ops1 ++ ops2) s = (s1 ← run b ops1 s; run b ops2 s1).
Proof.
  induction ops1 as [| op ops1 IH]; intros ops2 s; [reflexivity|].
  cbn [app GrowingSidetable.run].
  destruct (step b op s) as [s1| |]; cbn [mbind Outcome_bind];
    [apply IH | reflexivity..].
Qed.

(** X4. The table keeps no hidden slack: every growth ends with the size
    equal to the capacity, and no access, assignment or [Reset] separates
    them again.  So after any script that ran to its end, size and capacity
    are equal if they were equal before it or if the script grew the table
    at least once. *)
Theorem growing_size_is_capacity b ops (s s' : t T) :
  run b ops s = Ok s' ->
  capacity s = size s \/ (0 < growths b ops s)%nat ->
  capacity s' = size s'.
Proof.
  intros Hrun [Heq | Hpos].
  - eapply run_keeps_capacity_size; eassumption.
  - destruct (growths_positive_inv b ops s Hpos)
      as (before & op & after & s1 & s2 & k & -> & Hrun1 & Hstep & Hk & Hge).
    rewrite run_app, Hrun1 in Hrun. cbn [mbind Outcome_bind] in Hrun.
    cbn [GrowingSidetable.run] in Hrun. rewrite Hstep in Hrun.
    cbn [mbind Outcome_bind] in Hrun.
    eapply run_keeps_capacity_size; [exact Hrun|].
    destruct (step_access b op k s1 s2 Hstep Hk)
      as (s1' & _ & Hs & Hc & _ & _ & Hgrow).
    destruct (Hgrow Hge) as [_ Hcs]. congruence.
Qed.

(** X5. [Reset] clears the history: after a script of valid operations
    that contains a [Reset], reading a valid key returns the last value
    written to its slot since the last [Reset], and [T{}] when nothing was
    written to it since, whatever the table held or was constructed with
    and however far it has grown. *)
Theorem growing_reset_clears_history b before after k (s : t T) :
  forallb op_valid before = true ->
  forallb op_valid after = true ->
  forallb is_access after = true ->
  valid k = true ->
  exists s1 s2,
    run b (before ++ DoReset :: after) s = Ok s1 /\
    get b k s1 =
      Ok (s2, match last_write (id k) after with
              | Some x => x
              | None => T_default
              end).
Proof.
  intros Hbefore Hafter Hacc Hk. pose proof (id_uint32 k) as Hid.
  assert (Hops : forallb op_valid (before ++ DoReset :: after) = true).
  { rewrite forallb_app. cbn [forallb]. rewrite Hbefore, Hafter.
    reflexivity. }
  destruct (run_total T_default NewCapacity NewCapacity_ge b _ s Hops)
    as (s1 & Hrun).
  destruct (run_Ok_effect T_default NewCapacity NewCapacity_ge b _ s s1 Hrun)
    as (Hview & _).
  assert (Hadm : DCHECK b (valid k) = Ok tt)
    by (rewrite Hk; apply DCHECK_true).
  destruct (get_effect b k s1 Hadm) as (s2 & _ & Hget & _).
  exists s1, s2. split; [exact Hrun|].
  rewrite Hget, Hview by lia.
  rewrite fold_left_app. cbn [fold_left slot_after].
  now rewrite fold_slot_after_last_write.
Qed.

Lemma get_Ok_checked b k (s s' : t T) x :
  get b k s = Ok (s', x) -> DCHECK b (valid k) = Ok tt.
Proof.
  unfold GrowingSidetable.get, GrowingSidetable.index.
  destruct (DCHECK b (valid k)) as [[]| |]; cbn [mbind Outcome_bind];
    (reflexivity || discriminate).
Qed.

(** X6. Growth on read does not show in what is read: a read that returns
    leaves every slot's content as it was, a repeated read of the same key
    finds the table unchanged and returns the same value, and every read
    that returned a value before the read returns the same value after
    it. *)
Theorem growing_read_is_repeatable b k (s s' : t T) x :
  get b k s = Ok (s', x) ->
  get b k s' = Ok (s', x) /\
  (forall j, view s' j = view s j) /\
  (forall k' s1 y,
     get b k' s = Ok (s1, y) -> exists s2, get b k' s' = Ok (s2, y)).
Proof.
  intros Hget.
  pose proof (get_Ok_checked b k s s' x Hget) as Hadm.
  destruct (get_effect b k s Hadm) as (s0 & _ & Hget0 & Hview & _ & Hlt & _).
  rewrite Hget in Hget0. injection Hget0 as <- ->.
  split; [|split; [exact Hview|]].
  - destruct (index_effect b k s' Hadm)
      as (s1 & Hidx & _ & _ & _ & _ & Hsame & _).
    rewrite (Hsame Hlt) in Hidx.
    destruct (get_effect b k s' Hadm) as (s2 & Hidx2 & Hget2 & _).
    rewrite Hidx in Hidx2. injection Hidx2 as <-.
    now rewrite Hget2, Hview.
  - intros k' s1 y Hget'.
    pose proof (get_Ok_checked b k' s s1 y Hget') as Hadm'.
    destruct (get_effect b k' s Hadm') as (s1' & _ & Hget1 & _).
    rewrite Hget' in Hget1. injection Hget1 as _ ->.
    destruct (get_effect b k' s' Hadm') as (s2 & _ & Hget2 & _).
    exists s2. now rewrite Hget2, Hview.
Qed.

Lemma set_unfold b k x (s : t T) :
  DCHECK b (valid k) = Ok tt ->
  exists s',
    index b k s = Ok (s', Z.to_nat (id k)) /\
    id k < size s' /\
    set b k x s =
      Ok {| table_ := ZoneVector.store (Z.to_nat (id k)) x (table_ s') |}.
Proof.
  intros Hadm.
  destruct (index_effect b k s Hadm) as (s' & Hidx & Hlt & _).
  exists s'. repeat split; try assumption.
  unfold GrowingSidetable.set. now rewrite Hidx.
Qed.

(** X7. Writes compose as assignments to slots: a second write to the
    same key replaces the first and leaves the table the second write alone
    would have left; and two writes to keys with different ids leave the
    same content in every slot in either order (the sizes may differ, since
    growth depends on the order). *)
Theorem growing_writes_compose b k k' x y (s : t T) :
  valid k = true ->
  valid k' = true ->
  (exists s1 s2,
     set b k x s = Ok s1 /\ set b k y s1 = Ok s2 /\ set b k y s = Ok s2) /\
  (id k <> id k' ->
   exists s12 s21,
     (s1 ← set b k x s; set b k' y s1) = Ok s12 /\
     (s1 ← set b k' y s; set b k x s1) = Ok s21 /\
     (forall j, 0 <= j -> view s12 j = view s21 j)).
Proof.
  intros Hk Hk'.
  assert (Hadm : DCHECK b (valid k) = Ok tt)
    by (rewrite Hk; apply DCHECK_true).
  assert (Hadm' : DCHECK b (valid k') = Ok tt)
    by (rewrite Hk'; apply DCHECK_true).
  split.
  - destruct (set_unfold b k x s Hadm) as (s' & Hidx & Hlt & Hsetx).
    destruct (set_unfold b k y s Hadm) as (s'' & Hidx' & _ & Hsety).
    rewrite Hidx in Hidx'. injection Hidx' as <-.
    eexists _, _. split; [exact Hsetx|]. split; [|exact Hsety].
    match goal with |- set b k y ?t = _ => set (s1 := t) end.
    destruct (set_unfold b k y s1 Hadm) as (s1' & Hidx1 & _ & Hset1).
    destruct (index_effect b k s1 Hadm)
      as (s1'' & Hidx1' & _ & _ & _ & _ & Hsame & _).
    rewrite Hidx1 in Hidx1'. injection Hidx1' as <-.
    assert (Hlt1 : id k < size s1).
    { subst s1. unfold size, ZoneVector.size in *.
      cbn [table_ ZoneVector.store ZoneVector.data].
      now rewrite length_insert. }
    rewrite (Hsame Hlt1) in Hset1. rewrite Hset1. subst s1.
    unfold ZoneVector.store. cbn [table_ ZoneVector.data ZoneVector.capacity].
    now rewrite list_insert_insert_eq.
  - intros Hne.
    destruct (set_effect b k x s Hadm) as (s1 & Hs1 & Hv1 & _).
    destruct (set_effect b k' y s1 Hadm') as (s12 & Hs12 & Hv12 & _).
    destruct (set_effect b k' y s Hadm') as (s2 & Hs2 & Hv2 & _).
    destruct (set_effect b k x s2 Hadm) as (s21 & Hs21 & Hv21 & _).
    exists s12, s21. rewrite Hs1, Hs2. cbn [mbind Outcome_bind].
    split; [exact Hs12|]. split; [exact Hs21|].
    intros j Hj. rewrite Hv12, Hv1, Hv21, Hv2 by exact Hj.
    destruct (Z.eqb_spec (id k') j), (Z.eqb_spec (id k) j);
      (reflexivity || congruence).
Qed.
End GrowingLaws.

(** ** Laws of [Reset] that hold for every allocator *)

Section ResetLaws.
Context {T Key : Type} `{SidetableKey Key}.
Variable T_default : T.
Variable NewCapacity : Z -> Z -> Z.

Import GrowingSidetable.

Local Abbreviation index := (index T_default NewCapacity).
Local Abbreviation get := (get T_default NewCapacity).
Local Abbreviation set := (set T_default NewCapacity).
Local Abbreviation Reset := (Reset T_default).
Local Abbreviation vresize := (ZoneVector.resize T_default NewCapacity).

Lemma vresize_fill n (v : ZoneVector.t T) :
  vresize n (ZoneVector.fill T_default v) =
  ZoneVector.fill T_default (vresize n v).
Proof.
  destruct v as [l c].
  unfold ZoneVector.resize, ZoneVector.EnsureCapacity, ZoneVector.fill.
  cbn [ZoneVector.data ZoneVector.capacity].
  destruct (c <? n); cbn [ZoneVector.data ZoneVector.capacity];
    now rewrite resize_replicate, length_resize.
Qed.

Lemma index_Reset b k (s : t T) :
  index b k (Reset s) = ('(s', r) ← index b k s; Ok (Reset s', r)).
Proof.
  unfold GrowingSidetable.index.
  destruct (DCHECK b (valid k)) as [[]| |]; cbn [mbind Outcome_bind];
    try reflexivity.
  assert (Hsz : forall v : ZoneVector.t T,
             ZoneVector.size (ZoneVector.fill T_default v) = ZoneVector.size v).
  { intros v. unfold ZoneVector.size, ZoneVector.fill.
    cbn [ZoneVector.data]. now rewrite length_replicate. }
  unfold GrowingSidetable.Reset at 1. cbn [table_]. rewrite Hsz.
  destruct (ZoneVector.size (table_ s) <=? id k) eqn:Hgrow.
  - unfold NextSize, GrowingSidetable.Reset. cbn [table_]. rewrite Hsz, Hgrow.
    destruct (DCHECK b true) as [[]| |]; cbn [mbind Outcome_bind];
      try reflexivity.
    cbn [table_]. rewrite !vresize_fill.
    change (ZoneVector.capacity (ZoneVector.fill T_default ?v))
      with (ZoneVector.capacity v).
    set (v2 := vresize _ (vresize _ (table_ s))).
    unfold ZoneVector.at_. rewrite Hsz.
    destruct (DCHECK b (id k <? ZoneVector.size v2)) as [[]| |];
      cbn [mbind Outcome_bind]; try reflexivity.
    now destruct (id k <? ZoneVector.size v2).
  - cbn [mbind Outcome_bind table_]. unfold GrowingSidetable.Reset.
    cbn [table_]. unfold ZoneVector.at_. rewrite Hsz.
    destruct (DCHECK b (id k <? ZoneVector.size (table_ s))) as [[]| |];
      cbn [mbind Outcome_bind]; try reflexivity.
    now destruct (id k <? ZoneVector.size (table_ s)).
Qed.

(** Whatever the allocator, an access that returns refers to a slot inside
    the table it returns. *)
Lemma index_shape b k (s : t T) :
  (exists s',
     index b k s = Ok (s', Z.to_nat (id k)) /\
     (Z.to_nat (id k) < length (ZoneVector.data (table_ s')))%nat) \/
  (index b k s = Fatal \/ index b k s = Undefined).
Proof.
  pose proof (id_uint32 k) as Hid.
  unfold GrowingSidetable.index.
  destruct (DCHECK b (valid k)) as [[]| |]; cbn [mbind Outcome_bind];
    [|right; auto..].
  match goal with
  | |- context [mbind _ ?o] => destruct o as [s'| |]
  end; cbn [mbind Outcome_bind]; [|right; auto..].
  unfold ZoneVector.at_.
  destruct (DCHECK b (id k <? ZoneVector.size (table_ s'))) as [[]| |];
    cbn [mbind Outcome_bind]; [|right; auto..].
  destruct (Z.ltb_spec (id k) (ZoneVector.size (table_ s'))) as [Hlt | Hge];
    cbn [mbind Outcome_bind]; [|right; auto].
  left. exists s'. split; [reflexivity|].
  unfold ZoneVector.size in Hlt. lia.
Qed.

Lemma load_fill r (v : ZoneVector.t T) :
  ZoneVector.load r (ZoneVector.fill T_default v) =
  (_ ← ZoneVector.load r v; Ok T_default).
Proof.
  unfold ZoneVector.load, ZoneVector.fill. cbn [ZoneVector.data].
  destruct (ZoneVector.data v !! r) as [x|] eqn:E.
  - apply lookup_lt_Some in E. now rewrite lookup_replicate_2.
  - apply lookup_ge_None in E.
    now rewrite (proj1 (lookup_replicate_None _ _ _) E).
Qed.

(** X8. Growth depends on the size alone and [Reset] keeps the size, so
    [Reset] commutes with an access: reading a key and then resetting
    leaves the table that resetting and then reading the key leaves, in
    every build, for every key and every allocator (two aborts when the key
    is refused); and a write followed by [Reset] leaves what a read of the
    same key followed by [Reset] leaves: the value is erased, the growth is
    kept. *)
Theorem growing_reset_commutes_with_access b k (s : t T) :
  ('(s1, _) ← get b k s; Ok (Reset s1)) =
  ('(s1, _) ← get b k (Reset s); Ok s1) /\
  (forall x,
     (s1 ← set b k x s; Ok (Reset s1)) =
     ('(s1, _) ← get b k s; Ok (Reset s1))).
Proof.
  split.
  - unfold GrowingSidetable.get. rewrite index_Reset.
    destruct (index b k s) as [[s' r]| |]; cbn [mbind Outcome_bind];
      try reflexivity.
    change (table_ (Reset s'))
      with (ZoneVector.fill T_default (table_ s')).
    rewrite load_fill.
    destruct (ZoneVector.load r (table_ s')) as [x| |];
      cbn [mbind Outcome_bind]; reflexivity.
  - intros x. unfold GrowingSidetable.get, GrowingSidetable.set.
    destruct (index_shape b k s) as [(s' & Hidx & Hlt) | Hfail].
    + rewrite Hidx. cbn [mbind Outcome_bind].
      unfold ZoneVector.load.
      destruct (lookup_lt_is_Some_2 (ZoneVector.data (table_ s'))
                  (Z.to_nat (id k)) Hlt) as [y ->].
      cbn [mbind Outcome_bind]. f_equal.
      unfold GrowingSidetable.Reset, ZoneVector.fill, ZoneVector.store.
      cbn [table_ ZoneVector.data ZoneVector.capacity].
      now rewrite length_insert.
    + destruct Hfail as [Hf | Hf]; rewrite Hf; reflexivity.
Qed.
End ResetLaws.

(** ** Laws of the fixed container *)

Section FixedLaws.
Context {T Key : Type} `{SidetableKey Key}.

Import FixedSidetable.

Lemma fixed_set_cases b k x (s : t T) :
  (id k < size s /\
   set b k x s =
     Ok {| table_ := ZoneVector.store (Z.to_nat (id k)) x (table_ s) |}) \/
  (size s <= id k /\ set b k x s = failed b).
Proof.
  destruct (Z.lt_ge_cases (id k) (size s)) as [Hlt | Hge].
  - left. split; [exact Hlt|]. unfold FixedSidetable.set.
    now rewrite fixed_index_in_bounds.
  - right. split; [exact Hge|].
    destruct (fixed_index_out_of_bounds k s Hge) as [HD HR].
    unfold FixedSidetable.set. destruct b; [now rewrite HD | now rewrite HR].
Qed.

Lemma fixed_store_size r x (s : t T) :
  size {| table_ := ZoneVector.store r x (table_ s) |} = size s.
Proof.
  unfold size, ZoneVector.size. cbn [table_ ZoneVector.store ZoneVector.data].
  now rewrite length_insert.
Qed.

(** X9. On a fixed table writes are plain assignments and reads touch
    nothing: a second write to a key replaces the first, two writes to keys
    with different ids give the same outcome in either order (the same
    table, or the same failure when one of them is out of bounds), and a
    read that returns hands back the table it was given. *)
Theorem fixed_writes_compose b k k' x y (s : t T) :
  (s1 ← set b k x s; set b k y s1) = set b k y s /\
  (id k <> id k' ->
   (s1 ← set b k x s; set b k' y s1) = (s1 ← set b k' y s; set b k x s1)) /\
  (forall s' v, get b k s = Ok (s', v) -> s' = s).
Proof.
  pose proof (id_uint32 k) as Hid. pose proof (id_uint32 k') as Hid'.
  split; [|split].
  - destruct (fixed_set_cases b k x s) as [[Hlt ->] | [Hge ->]];
      [|destruct (fixed_set_cases b k y s) as [[Hlt _] | [_ ->]];
        [lia | now destruct b]].
    cbn [mbind Outcome_bind].
    destruct (fixed_set_cases b k y
                {| table_ := ZoneVector.store (Z.to_nat (id k)) x (table_ s) |})
      as [[_ ->] | [Hge _]]; [|rewrite fixed_store_size in Hge; lia].
    destruct (fixed_set_cases b k y s) as [[_ ->] | [Hge _]]; [|lia].
    unfold ZoneVector.store. cbn [table_ ZoneVector.data ZoneVector.capacity].
    now rewrite list_insert_insert_eq.
  - intros Hne.
    destruct (fixed_set_cases b k x s) as [[Hk ->] | [Hk ->]];
      destruct (fixed_set_cases b k' y s) as [[Hk' ->] | [Hk' ->]];
      cbn [mbind Outcome_bind].
    + destruct (fixed_set_cases b k' y
                  {| table_ :=
                       ZoneVector.store (Z.to_nat (id k)) x (table_ s) |})
        as [[_ ->] | [Hge _]]; [|rewrite fixed_store_size in Hge; lia].
      destruct (fixed_set_cases b k x
                  {| table_ :=
                       ZoneVector.store (Z.to_nat (id k')) y (table_ s) |})
        as [[_ ->] | [Hge _]]; [|rewrite fixed_store_size in Hge; lia].
      unfold ZoneVector.store.
      cbn [table_ ZoneVector.data ZoneVector.capacity].
      rewrite list_insert_insert_ne by lia. reflexivity.
    + destruct (fixed_set_cases b k' y
                  {| table_ :=
                       ZoneVector.store (Z.to_nat (id k)) x (table_ s) |})
        as [[Hlt _] | [_ ->]]; [rewrite fixed_store_size in Hlt; lia|].
      now destruct b.
    + destruct (fixed_set_cases b k x
                  {| table_ :=
                       ZoneVector.store (Z.to_nat (id k')) y (table_ s) |})
        as [[Hlt _] | [_ ->]]; [rewrite fixed_store_size in Hlt; lia|].
      now destruct b.
    + now destruct b.
  - intros s' v Hget. unfold FixedSidetable.get in Hget.
    destruct (Z.lt_ge_cases (id k) (size s)) as [Hlt | Hge].
    + rewrite fixed_index_in_bounds in Hget by exact Hlt.
      cbn [mbind Outcome_bind] in Hget.
      destruct (ZoneVector.load (Z.to_nat (id k)) (table_ s)) as [z| |];
        cbn [mbind Outcome_bind] in Hget; congruence.
    + destruct (fixed_index_out_of_bounds k s Hge) as [HD HR].
      destruct b; rewrite ?HD, ?HR in Hget; discriminate.
Qed.
End FixedLaws.

(** ** Scripts on node-keyed growing tables *)

Section KeyedLaws.
Context {Graph T : Type}.
Variable T_default : T.
Variable NewCapacity : Z -> Z -> Z.
Hypothesis NewCapacity_ge :
  forall cap minimum, minimum <= NewCapacity cap minimum.
Variable OpIndexBelongsToTableGraph : Graph -> OpIndex -> bool.

Import GrowingOpIndexSidetable.

Local Abbreviation table b := (t b Graph T).
Local Abbreviation index :=
  (index T_default NewCapacity OpIndexBelongsToTableGraph).
Local Abbreviation index_const :=
  (index_const T_default NewCapacity OpIndexBelongsToTableGraph).
Local Abbreviation get :=
  (get T_default NewCapacity OpIndexBelongsToTableGraph).
Local Abbreviation get_const :=
  (get_const T_default NewCapacity OpIndexBelongsToTableGraph).
Local Abbreviation set :=
  (set T_default NewCapacity OpIndexBelongsToTableGraph).
Local Abbreviation step :=
  (step T_default NewCapacity OpIndexBelongsToTableGraph).
Local Abbreviation run :=
  (run T_default NewCapacity OpIndexBelongsToTableGraph).
Local Abbreviation accepts := (graph_accepts OpIndexBelongsToTableGraph).
Local Abbreviation op_accepted := (op_accepted OpIndexBelongsToTableGraph).
Local Abbreviation check := (DCHECK_graph OpIndexBelongsToTableGraph).
Local Abbreviation Bget := (GrowingSidetable.get T_default NewCapacity).
Local Abbreviation Bset := (GrowingSidetable.set T_default NewCapacity).
Local Abbreviation Bstep := (GrowingSidetable.step T_default NewCapacity).
Local Abbreviation Brun := (GrowingSidetable.run T_default NewCapacity).
Local Abbreviation Bview := (GrowingSidetable.view T_default).

Lemma graph_accepts_check b (g : DebugOnly b Graph) i :
  accepts b g i = true -> check b g i = Ok tt.
Proof.
  unfold graph_accepts.
  destruct (check b g i) as [[]| |]; (reflexivity || discriminate).
Qed.

(** Once the graph check passes, the three uses of the accessors are the
    generic ones on the storage, under the same binding. *)
Lemma keyed_get_generic b i (s : table b) :
  check b (graph_ s) i = Ok tt ->
  get b i s =
    ('(base', x) ← Bget b i (base s);
     Ok ({| base := base'; graph_ := graph_ s |}, x)).
Proof.
  intros Hcheck.
  unfold GrowingOpIndexSidetable.get, GrowingOpIndexSidetable.index,
    GrowingSidetable.get.
  rewrite Hcheck. cbn [mbind Outcome_bind].
  destruct (GrowingSidetable.index _ _ b i (base s)) as [[base' r]| |];
    cbn [mbind Outcome_bind base]; try reflexivity.
  now destruct (ZoneVector.load r (GrowingSidetable.table_ base')).
Qed.

Lemma keyed_get_const_generic b i (s : table b) :
  check b (graph_ s) i = Ok tt ->
  get_const b i s =
    ('(base', x) ← Bget b i (base s);
     Ok ({| base := base'; graph_ := graph_ s |}, x)).
Proof.
  intros Hcheck.
  unfold GrowingOpIndexSidetable.get_const,
    GrowingOpIndexSidetable.index_const, GrowingSidetable.get.
  rewrite Hcheck. cbn [mbind Outcome_bind].
  change (GrowingSidetable.index_const T_default NewCapacity b i (base s))
    with (GrowingSidetable.index T_default NewCapacity b i (base s)).
  destruct (GrowingSidetable.index _ _ b i (base s)) as [[base' r]| |];
    cbn [mbind Outcome_bind base]; try reflexivity.
  now destruct (ZoneVector.load r (GrowingSidetable.table_ base')).
Qed.

Lemma keyed_set_generic b i x (s : table b) :
  check b (graph_ s) i = Ok tt ->
  set b i x s =
    (base' ← Bset b i x (base s);
     Ok {| base := base'; graph_ := graph_ s |}).
Proof.
  intros Hcheck.
  unfold GrowingOpIndexSidetable.set, GrowingOpIndexSidetable.index,
    GrowingSidetable.set.
  rewrite Hcheck. cbn [mbind Outcome_bind].
  now destruct (GrowingSidetable.index _ _ b i (base s)) as [[base' r]| |].
Qed.

Lemma keyed_step_generic b op (s : table b) :
  op_accepted b (graph_ s) op = true ->
  exists s',
    step b op s = Ok s' /\
    graph_ s' = graph_ s /\
    Bstep b (generic op) (base s) = Ok (base s').
Proof.
  unfold GrowingOpIndexSidetable.op_accepted.
  intros [Hvalid Hacc%graph_accepts_check]%andb_prop.
  destruct (step_effect T_default NewCapacity NewCapacity_ge b (generic op)
              (base s)) as (base' & Hstep & _).
  { unfold GrowingSidetable.op_checked.
    destruct op; cbn in *; rewrite Hvalid; apply DCHECK_true. }
  destruct op as [i | i | i x]; cbn [op_index generic] in *;
    cbn [GrowingOpIndexSidetable.step GrowingSidetable.step] in *.
  - rewrite keyed_get_generic by exact Hacc.
    destruct (Bget b i (base s)) as [[b1 x]| |];
      cbn [mbind Outcome_bind] in *; try discriminate.
    eexists. split; [reflexivity|]. now split.
  - rewrite keyed_get_const_generic by exact Hacc.
    destruct (Bget b i (base s)) as [[b1 x]| |];
      cbn [mbind Outcome_bind] in *; try discriminate.
    eexists. split; [reflexivity|]. now split.
  - rewrite keyed_set_generic by exact Hacc. rewrite Hstep.
    cbn [mbind Outcome_bind]. eexists. split; [reflexivity|]. now split.
Qed.

Lemma keyed_run_generic b ops : forall (s : table b),
  forallb (op_accepted b (graph_ s)) ops = true ->
  exists s',
    run b ops s = Ok s' /\
    graph_ s' = graph_ s /\
    Brun b (map generic ops) (base s) = Ok (base s').
Proof.
  induction ops as [| op ops IH]; intros s Hacc.
  - exists s. now repeat split.
  - cbn [forallb] in Hacc. apply andb_prop in Hacc as [Hop Hops].
    destruct (keyed_step_generic b op s Hop) as (s1 & Hstep & Hg & Hbase).
    rewrite <- Hg in Hops.
    destruct (IH s1 Hops) as (s' & Hrun & Hg' & Hbase').
    exists s'. cbn [GrowingOpIndexSidetable.run map GrowingSidetable.run].
    rewrite Hstep, Hbase. cbn [mbind Outcome_bind].
    repeat split; (assumption || congruence).
Qed.

Lemma generic_all_accesses (ops : list (Op T)) :
  forallb GrowingSidetable.is_access (map generic ops) = true.
Proof. induction ops as [| [] ops IH]; cbn; auto. Qed.

Lemma generic_last_write j (ops : list (Op T)) :
  GrowingSidetable.last_write j (map generic ops) = last_write j ops.
Proof.
  induction ops as [| op ops IH]; [reflexivity|].
  cbn [map GrowingSidetable.last_write last_write]. rewrite IH.
  destruct (last_write j ops); [reflexivity|]. now destruct op.
Qed.

Lemma keyed_run_app b ops1 : forall ops2 (s : table b),
  run b (ops1 ++ ops2) s = (s1 ← run b ops1 s; run b ops2 s1).
Proof.
  induction ops1 as [| op ops1 IH]; intros ops2 s; [reflexivity|].
  cbn [app GrowingOpIndexSidetable.run].
  destruct (step b op s) as [s1| |]; cbn [mbind Outcome_bind];
    [apply IH | reflexivity..].
Qed.

Lemma keyed_step_foreign op (s : table Debug) :
  OpIndexBelongsToTableGraph (graph_ s) (op_index op) = false ->
  step Debug op s = Fatal.
Proof.
  intros Hno.
  destruct op as [i | i | i x]; cbn [op_index] in Hno;
    unfold GrowingOpIndexSidetable.step, GrowingOpIndexSidetable.get,
      GrowingOpIndexSidetable.get_const, GrowingOpIndexSidetable.set,
      GrowingOpIndexSidetable.index, GrowingOpIndexSidetable.index_const;
    cbn; now rewrite Hno.
Qed.

(** X10. A node-keyed growing table used with valid indices that its
    graph check lets through is the generic container: a script of reads,
    through either overload, and writes runs to its end and keeps the graph
    binding, and a read of such an index after it, through either overload,
    returns the last value the script wrote at the index, or what the
    storage held there before the script.  In a debug build the script
    aborts at the first index, read or written through either overload,
    that does not belong to the table's graph. *)
Theorem node_keyed_script_reads_last_write :
  (forall b ops i (s : table b),
     forallb (op_accepted b (graph_ s)) ops = true ->
     valid i = true ->
     graph_accepts OpIndexBelongsToTableGraph b (graph_ s) i = true ->
     exists s' s1 s2,
       run b ops s = Ok s' /\
       graph_ s' = graph_ s /\
       get b i s' =
         Ok (s1, match last_write (id i) ops with
                 | Some x => x
                 | None => Bview (base s) (id i)
                 end) /\
       get_const b i s' =
         Ok (s2, match last_write (id i) ops with
                 | Some x => x
                 | None => Bview (base s) (id i)
                 end) /\
       graph_ s1 = graph_ s /\ graph_ s2 = graph_ s) /\
  (forall before op after (s : table Debug),
     forallb (op_accepted Debug (graph_ s)) before = true ->
     OpIndexBelongsToTableGraph (graph_ s) (op_index op) = false ->
     run Debug (before ++ op :: after) s = Fatal).
Proof.
  split.
  - intros b ops i s Hops Hvalid Hacc. pose proof (id_uint32 i) as Hid.
    destruct (keyed_run_generic b ops s Hops) as (s' & Hrun & Hg & Hbase).
    destruct (run_Ok_effect T_default NewCapacity NewCapacity_ge b _ _ _ Hbase)
      as (Hview & _).
    assert (Hpos : 0 <= id i) by lia.
    specialize (Hview (id i) Hpos).
    rewrite fold_slot_after_last_write, generic_last_write in Hview
      by apply generic_all_accesses.
    assert (Hcheck : check b (graph_ s') i = Ok tt)
      by (rewrite Hg; now apply graph_accepts_check).
    assert (Hadm : DCHECK b (valid i) = Ok tt)
      by (rewrite Hvalid; apply DCHECK_true).
    destruct (get_effect T_default NewCapacity NewCapacity_ge b i (base s')
                Hadm) as (base1 & _ & Hget & _).
    exists s'. eexists. eexists.
    split; [exact Hrun|]. split; [exact Hg|].
    rewrite keyed_get_generic, keyed_get_const_generic by exact Hcheck.
    rewrite Hget. cbn [mbind Outcome_bind]. rewrite Hview.
    split; [reflexivity|]. split; [reflexivity|].
    split; exact Hg.
  - intros before op after s Hbefore Hno.
    destruct (keyed_run_generic Debug before s Hbefore)
      as (s1 & Hrun & Hg & _).
    rewrite keyed_run_app, Hrun. cbn [mbind Outcome_bind].
    cbn [GrowingOpIndexSidetable.run].
    rewrite keyed_step_foreign by (rewrite Hg; exact Hno).
    reflexivity.
Qed.
End KeyedLaws.

(** ** Scripts on node-keyed fixed tables *)

Section KeyedFixedLaws.
Context {Graph T : Type}.
Variable T_default : T.
Variable OpIndexBelongsToTableGraph : Graph -> OpIndex -> bool.

Import FixedOpIndexSidetable.

Local Abbreviation table b := (t b Graph T).
Local Abbreviation get := (get OpIndexBelongsToTableGraph).
Local Abbreviation get_const := (get_const OpIndexBelongsToTableGraph).
Local Abbreviation set := (set OpIndexBelongsToTableGraph).
Local Abbreviation step := (step OpIndexBelongsToTableGraph).
Local Abbreviation run := (run OpIndexBelongsToTableGraph).
Local Abbreviation accepts := (graph_accepts OpIndexBelongsToTableGraph).
Local Abbreviation op_accepted := (op_accepted OpIndexBelongsToTableGraph).
Local Abbreviation check := (DCHECK_graph OpIndexBelongsToTableGraph).
Local Abbreviation Bsize := FixedSidetable.size.
Local Abbreviation Bview := (FixedSidetable.view T_default).

Lemma fixed_accepts_check b (g : DebugOnly b Graph) i :
  accepts b g i = true -> check b g i = Ok tt.
Proof.
  unfold graph_accepts.
  destruct (check b g i) as [[]| |]; (reflexivity || discriminate).
Qed.

Lemma keyed_fixed_eta b (s : table b) :
  {| base := base s; graph_ := graph_ s |} = s.
Proof. now destruct s. Qed.

(** Once the graph check passes and the index is in bounds, a read through
    either overload returns the table it was given and what the storage
    holds at the index. *)
Lemma keyed_fixed_get b i (s : table b) :
  check b (graph_ s) i = Ok tt ->
  id i < Bsize (base s) ->
  get b i s = Ok (s, Bview (base s) (id i)) /\
  get_const b i s = Ok (s, Bview (base s) (id i)).
Proof.
  intros Hcheck Hin.
  pose proof (fixed_get_in_bounds T_default b i (base s) Hin) as Hget.
  pose proof (fixed_get_const_in_bounds T_default b i (base s) Hin) as Hgetc.
  unfold FixedSidetable.get in Hget.
  unfold FixedSidetable.get_const in Hgetc.
  rewrite fixed_index_in_bounds in Hget by exact Hin.
  rewrite fixed_index_const_in_bounds in Hgetc by exact Hin.
  cbn [mbind Outcome_bind] in Hget, Hgetc.
  unfold FixedOpIndexSidetable.get, FixedOpIndexSidetable.get_const,
    FixedOpIndexSidetable.index, FixedOpIndexSidetable.index_const.
  rewrite Hcheck. cbn [mbind Outcome_bind].
  rewrite fixed_index_in_bounds, fixed_index_const_in_bounds by exact Hin.
  cbn [mbind Outcome_bind base]. rewrite keyed_fixed_eta.
  destruct (ZoneVector.load (Z.to_nat (id i))
              (FixedSidetable.table_ (base s))) as [x| |];
    cbn [mbind Outcome_bind] in *; try discriminate.
  injection Hget as ->. now split.
Qed.

Lemma keyed_fixed_step b op (s : table b) :
  op_accepted b (graph_ s) (Bsize (base s)) op = true ->
  exists s',
    step b op s = Ok s' /\
    graph_ s' = graph_ s /\
    FixedSidetable.step b (generic op) (base s) = Ok (base s').
Proof.
  unfold FixedOpIndexSidetable.op_accepted.
  intros [Hacc%fixed_accepts_check Hin%Z.ltb_lt]%andb_prop.
  destruct (keyed_fixed_get b (op_index op) s Hacc Hin) as [Hget Hgetc].
  destruct op as [i | i | i x]; cbn [op_index generic] in *;
    cbn [FixedOpIndexSidetable.step FixedSidetable.step].
  - exists s. rewrite Hget, (fixed_get_in_bounds T_default) by exact Hin.
    now repeat split.
  - exists s.
    rewrite Hgetc, (fixed_get_const_in_bounds T_default) by exact Hin.
    now repeat split.
  - unfold FixedOpIndexSidetable.set, FixedOpIndexSidetable.index,
      FixedSidetable.set.
    rewrite Hacc. cbn [mbind Outcome_bind].
    rewrite fixed_index_in_bounds by exact Hin.
    cbn [mbind Outcome_bind base graph_].
    eexists. split; [reflexivity|]. now split.
Qed.

Lemma keyed_fixed_run b ops : forall (s : table b),
  forallb (op_accepted b (graph_ s) (Bsize (base s))) ops = true ->
  exists s',
    run b ops s = Ok s' /\
    graph_ s' = graph_ s /\
    FixedSidetable.run b (map generic ops) (base s) = Ok (base s').
Proof.
  induction ops as [| op ops IH]; intros s Hacc.
  - exists s. now repeat split.
  - cbn [forallb] in Hacc. apply andb_prop in Hacc as [Hop Hops].
    destruct (keyed_fixed_step b op s Hop) as (s1 & Hstep & Hg & Hbase).
    assert (Hsz : Bsize (base s1) = Bsize (base s)).
    { destruct (fixed_step_in_bounds T_default b (generic op) (base s))
        as (b1 & Hb1 & Hsz & _).
      - unfold FixedOpIndexSidetable.op_accepted in Hop.
        apply andb_prop in Hop as [_ Hin].
        unfold FixedSidetable.op_in_range. now destruct op.
      - rewrite Hbase in Hb1. now injection Hb1 as <-. }
    rewrite <- Hg, <- Hsz in Hops.
    destruct (IH s1 Hops) as (s' & Hrun & Hg' & Hbase').
    exists s'. cbn [FixedOpIndexSidetable.run map FixedSidetable.run].
    rewrite Hstep, Hbase. cbn [mbind Outcome_bind].
    repeat split; (assumption || congruence).
Qed.

Lemma fixed_generic_in_range n b g (ops : list (Op T)) :
  forallb (op_accepted b g n) ops = true ->
  forallb (FixedSidetable.op_in_range n) (map generic ops) = true.
Proof.
  induction ops as [| op ops IH]; [reflexivity|].
  cbn [forallb map]. intros [Hop Hops]%andb_prop.
  rewrite (IH Hops), andb_true_r.
  unfold FixedOpIndexSidetable.op_accepted in Hop.
  apply andb_prop in Hop as [_ Hin].
  unfold FixedSidetable.op_in_range. now destruct op.
Qed.

Lemma fixed_generic_last_write j (ops : list (Op T)) :
  FixedSidetable.last_write j (map generic ops) = last_write j ops.
Proof.
  induction ops as [| op ops IH]; [reflexivity|].
  cbn [map FixedSidetable.last_write last_write]. rewrite IH.
  destruct (last_write j ops); [reflexivity|]. now destruct op.
Qed.

Lemma keyed_fixed_run_app b ops1 : forall ops2 (s : table b),
  run b (ops1 ++ ops2) s = (s1 ← run b ops1 s; run b ops2 s1).
Proof.
  induction ops1 as [| op ops1 IH]; intros ops2 s; [reflexivity|].
  cbn [app FixedOpIndexSidetable.run].
  destruct (step b op s) as [s1| |]; cbn [mbind Outcome_bind];
    [apply IH | reflexivity..].
Qed.

Lemma keyed_fixed_step_foreign op (s : table Debug) :
  OpIndexBelongsToTableGraph (graph_ s) (op_index op) = false ->
  step Debug op s = Fatal.
Proof.
  intros Hno.
  destruct op as [i | i | i x]; cbn [op_index] in Hno;
    unfold FixedOpIndexSidetable.step, FixedOpIndexSidetable.get,
      FixedOpIndexSidetable.get_const, FixedOpIndexSidetable.set,
      FixedOpIndexSidetable.index, FixedOpIndexSidetable.index_const;
    cbn; now rewrite Hno.
Qed.

(** X11. A node-keyed fixed table used with indices below its size that
    its graph check lets through is the generic fixed container: a script
    of reads, through either overload, and writes runs to its end, keeps
    the graph binding and the size, and a read of such an index after it,
    through either overload, hands back the table unchanged and returns the
    last value the script wrote at the index, or what the storage held
    there before the script.  In a debug build the script aborts at the
    first index, read or written through either overload, that does not
    belong to the table's graph. *)
Theorem node_keyed_fixed_script_reads_last_write :
  (forall b ops i (s : table b),
     forallb (op_accepted b (graph_ s) (Bsize (base s))) ops = true ->
     graph_accepts OpIndexBelongsToTableGraph b (graph_ s) i = true ->
     id i < Bsize (base s) ->
     exists s',
       run b ops s = Ok s' /\
       graph_ s' = graph_ s /\
       Bsize (base s') = Bsize (base s) /\
       get b i s' =
         Ok (s', match last_write (id i) ops with
                 | Some x => x
                 | None => Bview (base s) (id i)
                 end) /\
       get_const b i s' =
         Ok (s', match last_write (id i) ops with
                 | Some x => x
                 | None => Bview (base s) (id i)
                 end)) /\
  (forall before op after (s : table Debug),
     forallb (op_accepted Debug (graph_ s) (Bsize (base s))) before = true ->
     OpIndexBelongsToTableGraph (graph_ s) (op_index op) = false ->
     run Debug (before ++ op :: after) s = Fatal).
Proof.
  split.
  - intros b ops i s Hops Hacc Hin. pose proof (id_uint32 i) as Hid.
    destruct (keyed_fixed_run b ops s Hops) as (s' & Hrun & Hg & Hbase).
    destruct (fixed_run_in_bounds T_default b (map generic ops) (base s))
      as (b1 & Hb1 & Hsz & _ & Hview).
    { eapply fixed_generic_in_range. exact Hops. }
    rewrite Hbase in Hb1. injection Hb1 as <-.
    assert (Hpos : 0 <= id i) by lia.
    specialize (Hview (id i) Hpos).
    rewrite fixed_generic_last_write in Hview.
    assert (Hcheck : check b (graph_ s') i = Ok tt)
      by (rewrite Hg; now apply fixed_accepts_check).
    destruct (keyed_fixed_get b i s' Hcheck ltac:(lia)) as [Hget Hgetc].
    exists s'. rewrite Hget, Hgetc, Hview. now repeat split.
  - intros before op after s Hbefore Hno.
    destruct (keyed_fixed_run Debug before s Hbefore)
      as (s1 & Hrun & Hg & _).
    rewrite keyed_fixed_run_app, Hrun. cbn [mbind Outcome_bind].
    cbn [FixedOpIndexSidetable.run].
    rewrite keyed_fixed_step_foreign by (rewrite Hg; exact Hno).
    reflexivity.
Qed.
End KeyedFixedLaws.

(** ** Concrete runs *)

Lemma doubling_capacity_ge cap minimum :
  minimum <= doubling_capacity cap minimum.
Proof. unfold doubling_capacity. lia. Qed.

Section Runs.
Import GrowingSidetable.

Local Abbreviation run0 := (run (Key := BlockIndex) 0 doubling_capacity).
Local Abbreviation get0 := (get (Key := BlockIndex) 0 doubling_capacity).
Local Abbreviation index0 := (index (Key := BlockIndex) 0 doubling_capacity).

(** C1, counterexample.  A table of integers constructed with two slots
    holding 5: slot 1 is never written, a read of id 7 grows the table in
    between, and the read of id 1 returns 5, which is not the
    value-initialised integer 0. *)
Lemma growing_presized_slot_reads_initial_value :
  last_write (T := Z) 1 [Read (block 7)] = None /\
  exists s1 s2,
    run0 Debug [Read (block 7)] (create_filled 2 5) = Ok s1 /\
    get0 Debug (block 1) s1 = Ok (s2, 5) /\
    5 <> 0.
Proof.
  split; [reflexivity|].
  do 2 eexists. split; [vm_compute; reflexivity|].
  split; [vm_compute; reflexivity | discriminate].
Qed.

Lemma growing_read_after_accesses_witness :
  exists s1 s2,
    run0 Debug
      [Write (block 100) 7; Write (block 0) 3; Read (block 500);
       Write (block 100) 9]
      (create_filled 2 5) = Ok s1 /\
    get0 Debug (block 100) s1 = Ok (s2, 9).
Proof.
  pose proof (growing_read_after_accesses 0 doubling_capacity
                doubling_capacity_ge Debug
                [Write (block 100) 7; Write (block 0) 3; Read (block 500);
                 Write (block 100) 9]
                (block 100) (create_filled 2 5)) as Hread.
  destruct (Hread eq_refl eq_refl eq_refl) as [(s1 & s2 & Hrun & Hget) _].
  exists s1, s2. split; [exact Hrun | exact Hget].
Defined.

Lemma growing_access_grows_witness :
  exists s',
    index0 Debug (block 100) (create : t Z) = Ok (s', 100%nat) /\
    182 <= size s' /\ capacity s' = size s'.
Proof.
  pose proof (growing_access_grows 0 doubling_capacity
                doubling_capacity_ge Debug (block 100) (create : t Z))
    as Hacc.
  destruct (Hacc eq_refl) as (s' & Hidx & Hgrow & _).
  exists s'. split; [exact Hidx|].
  destruct Hgrow as (Hsz & Hcap & _); [vm_compute; discriminate|].
  split; [exact Hsz | exact Hcap].
Defined.

(** C4, counterexample.  A table constructed with three slots is never
    grown, has [Reset] called, and does not report empty. *)
Lemma growing_presized_reset_not_empty :
  existsb is_access [DoReset (T := Z) (Key := BlockIndex)] = false /\
  run0 Debug [DoReset] (create_filled 3 5)
    = Ok (Reset 0 (create_filled 3 5)) /\
  empty (Reset 0 (create_filled 3 5 : t Z)) = false.
Proof. repeat split. Qed.

Lemma growing_empty_tells_history_witness :
  match run0 Debug [Write (block 3) 1; DoReset] create with
  | Ok s' => empty s' = false
  | _ => False
  end.
Proof.
  pose proof (growing_empty_tells_history (Key := BlockIndex) 0
                doubling_capacity doubling_capacity_ge Debug)
    as (_ & _ & Hgrown & _).
  specialize (Hgrown [Write (block 3) 1; DoReset] create).
  destruct (run0 Debug [Write (block 3) 1; DoReset] create) as [s'| |] eqn:E.
  - now apply Hgrown.
  - vm_compute in E. discriminate.
  - vm_compute in E. discriminate.
Defined.

Lemma growing_size_covers_keys_witness :
  match run0 Debug [Write (block 100) 7; DoReset; Read (block 3)] create with
  | Ok s' => 0 <= size s' /\ 100 <= size s'
  | _ => False
  end.
Proof.
  pose proof (growing_size_covers_keys 0 doubling_capacity
                doubling_capacity_ge Debug
                [Write (block 100) 7; DoReset; Read (block 3)] create)
    as Hcov.
  destruct (run0 Debug [Write (block 100) 7; DoReset; Read (block 3)] create)
    as [s'| |] eqn:E.
  - destruct (Hcov s' eq_refl) as (Hsz & _ & Hkeys).
    split; [exact Hsz|].
    apply (Hkeys (Write (block 100) 7) (block 100)); [now left | reflexivity].
  - vm_compute in E. discriminate.
  - vm_compute in E. discriminate.
Defined.

Lemma fixed_access_within_capacity_witness :
  exists s1,
    FixedSidetable.run Debug
      [FixedSidetable.Write (block 2) 9; FixedSidetable.Read (block 3);
       FixedSidetable.ReadConst (block 0)]
      (FixedSidetable.create_filled 4 5) = Ok s1 /\
    FixedSidetable.size s1 = 4 /\
    FixedSidetable.get Debug (block 2) s1 = Ok (s1, 9) /\
    FixedSidetable.get_const Debug (block 2) s1 = Ok (s1, 9).
Proof.
  pose proof (fixed_access_within_capacity 0 Debug 4 5
                [FixedSidetable.Write (block 2) 9;
                 FixedSidetable.Read (block 3);
                 FixedSidetable.ReadConst (block 0)]
                (block 2)) as Hfix.
  destruct Hfix
    as (_ & (s1 & Hrun & Hsz & _ & _ & _ & Hget & Hgetc) & _);
    [lia | reflexivity | reflexivity |].
  exists s1. repeat split; assumption.
Defined.

(** A table bound to the graph of operations 0, 1 and 2 is asked for
    operation 5. *)
Lemma node_keyed_access_checks_graph_witness :
  GrowingOpIndexSidetable.index 0 doubling_capacity listed_graph_owns
    Debug (op 5)
    (GrowingOpIndexSidetable.create (T := Z) Debug [0; 1; 2])
  = Fatal.
Proof.
  pose proof (node_keyed_access_checks_graph (T := Z) 0 doubling_capacity
                listed_graph_owns) as (_ & Hforeign & _).
  apply (Hforeign (GrowingOpIndexSidetable.create Debug [0; 1; 2]) (op 5)).
  reflexivity.
Defined.

(** A table bound to the graph of operations 0 and 1 receives the storage
    of a table bound to the graph of operation 5, and still refuses
    operation 5. *)
Lemma SwapData_keeps_graph_binding_witness :
  GrowingOpIndexSidetable.index 0 doubling_capacity listed_graph_owns
    Debug (op 5)
    (fst (GrowingOpIndexSidetable.SwapData
            (GrowingOpIndexSidetable.create (T := Z) Debug [0; 1])
            (GrowingOpIndexSidetable.create_filled Debug 8 3 [5])))
  = Fatal.
Proof.
  pose proof (SwapData_keeps_graph_binding (T := Z) 0 doubling_capacity
                listed_graph_owns) as (_ & _ & Hstale & _).
  apply Hstale. reflexivity.
Defined.

(** A table bound to the graph of operations 0 and 1, constructed empty,
    is swapped with a table of eight slots holding 3 that is bound to the
    graph of operation 5; a read of operation 1 from the first table then
    returns 3. *)
Lemma SwapData_exchanges_storage_witness :
  GrowingOpIndexSidetable.read 0 doubling_capacity listed_graph_owns
    Debug (op 1)
    (fst (GrowingOpIndexSidetable.SwapData
            (GrowingOpIndexSidetable.create (T := Z) Debug [0; 1])
            (GrowingOpIndexSidetable.create_filled Debug 8 3 [5])))
  = Ok 3.
Proof.
  pose proof (SwapData_exchanges_storage (T := Z) 0 doubling_capacity
                doubling_capacity_ge listed_graph_owns Debug)
    as (Hgrowing & _).
  destruct (Hgrowing (GrowingOpIndexSidetable.create Debug [0; 1])
              (GrowingOpIndexSidetable.create_filled Debug 8 3 [5]))
    as (_ & _ & _ & _ & Hread).
  destruct (Hread (op 1) eq_refl) as [Hfst _].
  apply Hfst. reflexivity.
Defined.
End Runs.

(** ** Concrete runs of the laws *)

Section LawRuns.
Import GrowingSidetable.

Local Abbreviation run0 := (run (Key := BlockIndex) 0 doubling_capacity).
Local Abbreviation get0 := (get (Key := BlockIndex) 0 doubling_capacity).
Local Abbreviation set0 := (set (Key := BlockIndex) 0 doubling_capacity).
Local Abbreviation index0 := (index (Key := BlockIndex) 0 doubling_capacity).
Local Abbreviation growths0 :=
  (growths (Key := BlockIndex) 0 doubling_capacity).

Lemma growing_access_only_fails_validity_witness :
  exists s',
    index0 Debug (block 5) (create : t Z)
      = Ok (s', Z.to_nat (id (block 5))) /\
    id (block 5) < size s'.
Proof.
  pose proof (growing_access_only_fails_validity 0 doubling_capacity
                doubling_capacity_ge (block 5) (create : t Z))
    as (_ & Hvalid & _).
  apply Hvalid. reflexivity.
Defined.

Lemma growing_growth_is_geometric_witness :
  exists s',
    index0 Debug (block 100) (create_filled 6 1)
      = Ok (s', Z.to_nat (id (block 100))) /\
    41 <= size s'.
Proof.
  pose proof (growing_growth_is_geometric 0 doubling_capacity
                doubling_capacity_ge Debug (block 100) (create_filled 6 1))
    as Hgeo.
  destruct Hgeo as (s' & Hidx & Hsz & _);
    [reflexivity | vm_compute; discriminate |].
  exists s'. split; [exact Hidx|].
  change (size (create_filled 6 1 : t Z)) with 6 in Hsz.
  change (6 + 6 / 2 + 32) with 41 in Hsz. exact Hsz.
Defined.

Lemma growing_growths_bounded_witness :
  Nat.le
    (growths0 Debug [Write (block 100) 7; Read (block 3); Read (block 500)]
       (create : t Z))
    growth_limit.
Proof.
  apply (growing_growths_bounded 0 doubling_capacity doubling_capacity_ge).
Defined.

Lemma growing_size_is_capacity_witness :
  match run0 Debug [Write (block 100) 7; DoReset; Read (block 3)] create with
  | Ok s' => capacity s' = size s'
  | _ => False
  end.
Proof.
  pose proof (growing_size_is_capacity 0 doubling_capacity
                doubling_capacity_ge Debug
                [Write (block 100) 7; DoReset; Read (block 3)] create)
    as Hinv.
  destruct (run0 Debug [Write (block 100) 7; DoReset; Read (block 3)] create)
    as [s'| |] eqn:E.
  - apply (Hinv s' eq_refl). left. reflexivity.
  - vm_compute in E. discriminate.
  - vm_compute in E. discriminate.
Defined.

Lemma growing_reset_clears_history_witness :
  exists s1 s2,
    run0 Debug ([Write (block 3) 9] ++ DoReset :: [Write (block 4) 1])
      (create_filled 2 5) = Ok s1 /\
    get0 Debug (block 3) s1 = Ok (s2, 0).
Proof.
  pose proof (growing_reset_clears_history 0 doubling_capacity
                doubling_capacity_ge Debug
                [Write (block 3) 9] [Write (block 4) 1] (block 3)
                (create_filled 2 5)) as Hreset.
  destruct (Hreset eq_refl eq_refl eq_refl eq_refl)
    as (s1 & s2 & Hrun & Hget).
  exists s1, s2. split; [exact Hrun | exact Hget].
Defined.

Lemma growing_read_is_repeatable_witness :
  match get0 Debug (block 3) (create_filled 2 5) with
  | Ok (s', x) => get0 Debug (block 3) s' = Ok (s', x)
  | _ => False
  end.
Proof.
  pose proof (growing_read_is_repeatable 0 doubling_capacity
                doubling_capacity_ge Debug (block 3) (create_filled 2 5))
    as Hrep.
  destruct (get0 Debug (block 3) (create_filled 2 5)) as [[s' x]| |] eqn:E.
  - apply (Hrep s' x eq_refl).
  - vm_compute in E. discriminate.
  - vm_compute in E. discriminate.
Defined.

Lemma growing_writes_compose_witness :
  exists s1 s2,
    set0 Debug (block 3) 7 (create : t Z) = Ok s1 /\
    set0 Debug (block 3) 8 s1 = Ok s2 /\
    set0 Debug (block 3) 8 (create : t Z) = Ok s2.
Proof.
  pose proof (growing_writes_compose 0 doubling_capacity
                doubling_capacity_ge Debug (block 3) (block 4) 7 8
                (create : t Z)) as Hw.
  destruct (Hw eq_refl eq_refl) as [Hover _]. exact Hover.
Defined.

(** A table bound to the graph of operations 0 and 1 is written twice at
    operation 1, with a const read of operation 0 in between; both
    overloads then read 9 at operation 1. *)
Lemma node_keyed_script_reads_last_write_witness :
  exists s' s1 s2,
    GrowingOpIndexSidetable.run 0 doubling_capacity listed_graph_owns Debug
      [GrowingOpIndexSidetable.Write (op 1) 7;
       GrowingOpIndexSidetable.ReadConst (op 0);
       GrowingOpIndexSidetable.Write (op 1) 9]
      (GrowingOpIndexSidetable.create Debug [0; 1]) = Ok s' /\
    GrowingOpIndexSidetable.get 0 doubling_capacity listed_graph_owns Debug
      (op 1) s' = Ok (s1, 9) /\
    GrowingOpIndexSidetable.get_const 0 doubling_capacity listed_graph_owns
      Debug (op 1) s' = Ok (s2, 9).
Proof.
  pose proof (node_keyed_script_reads_last_write (T := Z) 0
                doubling_capacity doubling_capacity_ge listed_graph_owns)
    as (Hscript & _).
  destruct (Hscript Debug
              [GrowingOpIndexSidetable.Write (op 1) 7;
               GrowingOpIndexSidetable.ReadConst (op 0);
               GrowingOpIndexSidetable.Write (op 1) 9]
              (op 1) (GrowingOpIndexSidetable.create Debug [0; 1])
              eq_refl eq_refl eq_refl)
    as (s' & s1 & s2 & Hrun & _ & Hget & Hgetc & _).
  exists s', s1, s2. repeat split; assumption.
Defined.
End LawRuns.
